(** * Source file management (crates/typst/src/syntax/source.rs)

    A shallow embedding of [Source]: the text, its line table and the
    position queries, the incremental [edit], and the copy-on-write
    handle built on [Arc::make_mut].

    A Rust [String] is valid UTF-8, i.e. a sequence of Unicode scalar
    values; it is modelled as a [list char] with [char] the scalar value
    (as [N]).  Byte offsets and UTF-16 offsets are the sums of
    [len_utf8] and [len_utf16] of the characters before them, and a byte
    offset is a character boundary exactly when some prefix of the text
    has that byte length. *)

From Stdlib Require Import NArith Arith Lia List Sorted.
From stdpp Require Import base gmap.
Import ListNotations.

(* ------------------------------------------------------------------ *)
(** ** Characters and their encodings *)

Definition char := N.

Definition LF : char := 10%N.
Definition CR : char := 13%N.

Definition char_eqb (a b : char) : bool := N.eqb a b.

(** [char::len_utf8]. *)
Definition len_utf8 (c : char) : nat :=
  if (c <? 128)%N then 1
  else if (c <? 2048)%N then 2
  else if (c <? 65536)%N then 3
  else 4.

(** [char::len_utf16]: [(ch & 0xFFFF) == ch] means one code unit. *)
Definition len_utf16 (c : char) : nat :=
  if (N.land c 65535 =? c)%N then 1 else 2.

(** Modelled from the spec: [is_newline] (crates/typst/src/syntax/lexer.rs,
    not part of the sources given).  The spec's splitting rule names the
    line terminators [\n] and [\r] (with [\r\n] treated as one).  The
    line scanner below takes the lexer's [is_newline] as a parameter; this
    reading of it is used where a statement is about which characters end
    a line. *)
Definition is_newline_spec (c : char) : bool :=
  char_eqb c LF || char_eqb c CR.

(** Total byte length ([str::len]) and UTF-16 length ([StrExt::len_utf16]). *)
Fixpoint len_bytes (s : list char) : nat :=
  match s with
  | [] => 0
  | c :: s' => len_utf8 c + len_bytes s'
  end.

Fixpoint len_utf16_str (s : list char) : nat :=
  match s with
  | [] => 0
  | c :: s' => len_utf16 c + len_utf16_str s'
  end.

(* ------------------------------------------------------------------ *)
(** ** Byte-indexed slicing of a [str] *)

(** Split a string at byte offset [b]: [Some (p, q)] with [len_bytes p = b]
    when [b] is a character boundary, [None] when [b] lies inside a
    character or beyond the end. *)
Fixpoint split_at_byte (s : list char) (b : nat) : option (list char * list char) :=
  match b with
  | 0 => Some ([], s)
  | S _ =>
      match s with
      | [] => None
      | c :: s' =>
          if len_utf8 c <=? b then
            match split_at_byte s' (b - len_utf8 c) with
            | Some (p, q) => Some (c :: p, q)
            | None => None
            end
          else None
      end
  end.

(** [str::is_char_boundary] (false beyond the end). *)
Definition is_char_boundary (s : list char) (b : nat) : bool :=
  match split_at_byte s b with Some _ => true | None => false end.

(** [str::get(a..b)]: [None] unless [a <= b] and both are boundaries. *)
Definition str_get (s : list char) (a b : nat) : option (list char) :=
  if a <=? b then
    match split_at_byte s a with
    | Some (_, rest) =>
        match split_at_byte rest (b - a) with
        | Some (mid, _) => Some mid
        | None => None
        end
    | None => None
    end
  else None.

(* ------------------------------------------------------------------ *)
(** ** Outcomes: a returned value or a panic *)

Inductive outcome (A : Type) : Type :=
| Ret (a : A)
| Panic.
Arguments Ret {A} a.
Arguments Panic {A}.

Definition obind {A B} (m : outcome A) (k : A -> outcome B) : outcome B :=
  match m with Ret a => k a | Panic => Panic end.

Global Instance outcome_ret : MRet outcome := fun A a => Ret a.
Global Instance outcome_bind : MBind outcome := fun A B k m => obind m k.

(** [Option::unwrap]. *)
Definition unwrap {A} (m : outcome (option A)) : outcome A :=
  obind m (fun o => match o with Some a => Ret a | None => Panic end).

(** [text[a..]] and [text[..a]]: panic unless [a] is a boundary. *)
Definition slice_from (s : list char) (a : nat) : outcome (list char) :=
  match split_at_byte s a with Some (_, q) => Ret q | None => Panic end.

Definition slice_to (s : list char) (a : nat) : outcome (list char) :=
  match split_at_byte s a with Some (p, _) => Ret p | None => Panic end.

(* ------------------------------------------------------------------ *)
(** ** Line table *)

(** [struct Line]. *)
Record Line := mkLine { byte_idx : nat; utf16_idx : nat }.

Section Lines.
(** [is_newline] of the lexer, which is not part of these sources. *)
Variable is_newline : char -> bool.

(** [lines_from(byte_offset, utf16_offset, text)]: the iterator run to the
    end.  [cursor] is the scanner's byte position in [text]; [utf16_idx] is
    the counter that the [eat_until] closure increases for every character
    it is called on, the terminating newline included. *)
Fixpoint lines_scan (byte_offset cursor utf16_idx : nat) (s : list char)
  : list Line :=
  match s with
  | [] => []                                  (* s.done(): None *)
  | c :: rest =>
      let utf16_idx := utf16_idx + len_utf16 c in
      if is_newline c then
        (* s.eat() consumes the newline *)
        let cursor := cursor + len_utf8 c in
        if char_eqb c CR then
          match rest with
          | c' :: rest' =>
              if char_eqb c' LF then
                (* s.eat_if('\n') and utf16_idx += 1 *)
                mkLine (byte_offset + (cursor + 1)) (utf16_idx + 1)
                  :: lines_scan byte_offset (cursor + 1) (utf16_idx + 1) rest'
              else
                mkLine (byte_offset + cursor) utf16_idx
                  :: lines_scan byte_offset cursor utf16_idx rest
          | [] =>
              mkLine (byte_offset + cursor) utf16_idx
                :: lines_scan byte_offset cursor utf16_idx rest
          end
        else
          mkLine (byte_offset + cursor) utf16_idx
            :: lines_scan byte_offset cursor utf16_idx rest
      else
        (* eat_until moves on *)
        lines_scan byte_offset (cursor + len_utf8 c) utf16_idx rest
  end.

Definition lines_from (byte_offset utf16_offset : nat) (text : list char)
  : list Line :=
  lines_scan byte_offset 0 utf16_offset text.

(** [lines(text)]. *)
Definition lines (text : list char) : list Line :=
  mkLine 0 0 :: lines_from 0 0 text.
End Lines.

(* ------------------------------------------------------------------ *)
(** ** Position queries *)

(** The result of [slice::binary_search_by_key]. *)
Inductive search_result := Ok (i : nat) | Err (i : nat).

Definition search_shift (r : search_result) : search_result :=
  match r with Ok i => Ok (S i) | Err i => Err (S i) end.

(** [binary_search_by_key(&key, f)] on a slice sorted by [f]: [Ok i] when
    [f l[i] = key], otherwise [Err i] with [i] the insertion point.  The
    line tables are sorted with distinct keys, where this result is the
    only one Rust's contract allows; it is computed here by a linear walk. *)
Fixpoint binary_search_by_key {A} (key : nat) (f : A -> nat) (l : list A)
  : search_result :=
  match l with
  | [] => Err 0
  | x :: l' =>
      if f x <? key then search_shift (binary_search_by_key key f l')
      else if f x =? key then Ok 0
      else Err 0
  end.

(** [match .. { Ok(i) => i, Err(i) => i - 1 }]; [0 - 1] is an overflow
    panic. *)
Definition line_of_search (r : search_result) : outcome nat :=
  match r with
  | Ok i => Ret i
  | Err 0 => Panic
  | Err (S i) => Ret i
  end.

Section Queries.
(** The fields [self.0.text] and [self.0.lines] of the queried source. *)
Variable text : list char.
Variable lines : list Line.

(** [Source::byte_to_line]. *)
Definition byte_to_line (byte_idx' : nat) : outcome (option nat) :=
  if byte_idx' <=? len_bytes text then
    i ← line_of_search (binary_search_by_key byte_idx' byte_idx lines);
    Ret (Some i)
  else Ret None.

(** [Source::byte_to_utf16]. *)
Definition byte_to_utf16 (byte_idx' : nat) : outcome (option nat) :=
  oi ← byte_to_line byte_idx';
  match oi with
  | None => Ret None
  | Some line_idx =>
      match lines !! line_idx with
      | None => Ret None
      | Some line =>
          match str_get text (byte_idx line) byte_idx' with
          | None => Ret None
          | Some head => Ret (Some (utf16_idx line + len_utf16_str head))
          end
      end
  end.

(** [Source::line_to_byte]. *)
Definition line_to_byte (line_idx : nat) : option nat :=
  match lines !! line_idx with
  | Some line => Some (byte_idx line)
  | None => None
  end.

(** [Source::byte_to_column]. *)
Definition byte_to_column (byte_idx' : nat) : outcome (option nat) :=
  oi ← byte_to_line byte_idx';
  match oi with
  | None => Ret None
  | Some line =>
      match line_to_byte line with
      | None => Ret None
      | Some start =>
          match str_get text start byte_idx' with
          | None => Ret None
          | Some head => Ret (Some (length head))
          end
      end
  end.

(** The loop of [utf16_to_byte] over [text[line.byte_idx..].char_indices()]:
    [inl i] is the early [return] at byte [i] of the slice, [inr k] the
    counter when the loop runs out. *)
Fixpoint utf16_scan (utf16_idx' k i : nat) (s : list char) : nat + nat :=
  match s with
  | [] => inr k
  | c :: s' =>
      if utf16_idx' <=? k then inl i
      else utf16_scan utf16_idx' (k + len_utf16 c) (i + len_utf8 c) s'
  end.

(** [Source::utf16_to_byte]. *)
Definition utf16_to_byte (utf16_idx' : nat) : outcome (option nat) :=
  li ← line_of_search (binary_search_by_key utf16_idx' utf16_idx lines);
  match lines !! li with
  | None => Ret None
  | Some line =>
      rest ← slice_from text (byte_idx line);
      match utf16_scan utf16_idx' (utf16_idx line) 0 rest with
      | inl i => Ret (Some (byte_idx line + i))
      | inr k => Ret (if k =? utf16_idx' then Some (len_bytes text) else None)
      end
  end.

(** [Source::line_to_range]. *)
Definition line_to_range (line_idx : nat) : option (nat * nat) :=
  match line_to_byte line_idx with
  | None => None
  | Some start =>
      let end_ := match line_to_byte (line_idx + 1) with
                  | Some e => e
                  | None => len_bytes text
                  end in
      Some (start, end_)
  end.

(** [for _ in 0..n { chars.next(); }] followed by [chars.as_str()]. *)
Fixpoint chars_advance (n : nat) (s : list char) : list char :=
  match n with
  | 0 => s
  | S n' => chars_advance n' (match s with [] => [] | _ :: s' => s' end)
  end.

(** [Source::line_column_to_byte]. *)
Definition line_column_to_byte (line_idx column_idx : nat) : option nat :=
  match line_to_range line_idx with
  | None => None
  | Some (start, end_) =>
      match str_get text start end_ with
      | None => None
      | Some line =>
          let rest := chars_advance column_idx line in
          Some (start + (len_bytes line - len_bytes rest))
      end
  end.

(** [Source::get]: [self.text().get(range)]. *)
Definition get (range : nat * nat) : option (list char) :=
  str_get text (fst range) (snd range).

(** [Source::len_utf16]: the last record, [.unwrap()]ed, plus the UTF-16
    length of the text after it. *)
Definition source_len_utf16 : outcome nat :=
  match last lines with
  | None => Panic
  | Some last_ =>
      rest ← slice_from text (byte_idx last_);
      Ret (utf16_idx last_ + len_utf16_str rest)
  end.

(** [Source::len_lines]. *)
Definition len_lines : nat := length lines.
End Queries.

(* ------------------------------------------------------------------ *)
(** ** The incremental edit of the text and the line table *)

(** [String::replace_range]: asserts both ends are boundaries, and
    [Vec::splice] panics when [start > end]. *)
Definition replace_range (s : list char) (start end_ : nat) (w : list char)
  : outcome (list char) :=
  match split_at_byte s start, split_at_byte s end_ with
  | Some (p, _), Some (_, q) => if start <=? end_ then Ret (p ++ w ++ q) else Panic
  | _, _ => Panic
  end.

(** [Vec::truncate] and [Vec::pop] (its result dropped). *)
Definition truncate {A} (n : nat) (l : list A) : list A := firstn n l.
Definition pop {A} (l : list A) : list A := removelast l.

(** [str::ends_with('\r')] and [str::starts_with('\n')]. *)
Definition ends_with_cr (s : list char) : bool :=
  match rev s with c :: _ => char_eqb c CR | [] => false end.
Definition starts_with_lf (s : list char) : bool :=
  match s with c :: _ => char_eqb c LF | [] => false end.

Section Edit.
Variable is_newline : char -> bool.

(** The body of [Source::edit] after [Arc::make_mut], on the text and the
    line table, given the [start_utf16] and [line] captured before. *)
Definition edit_update (text : list char) (lines : list Line)
    (start_utf16 line : nat) (replace : nat * nat) (with_ : list char)
  : outcome (list char * list Line) :=
  let start_byte := fst replace in
  text' ← replace_range text start_byte (snd replace) with_;
  let lines1 := truncate (line + 1) lines in
  prefix ← slice_to text' start_byte;
  let lines2 := if ends_with_cr prefix && starts_with_lf with_
                then pop lines1 else lines1 in
  suffix ← slice_from text' start_byte;
  Ret (text', lines2 ++ lines_from is_newline start_byte start_utf16 suffix).

(** [Source::edit] on the text and the line table (the reparse of the
    tree comes later, in [Snapshot]). *)
Definition edit_index (text : list char) (lines : list Line)
    (replace : nat * nat) (with_ : list char) : outcome (list char * list Line) :=
  let start_byte := fst replace in
  start_utf16 ← unwrap (byte_to_utf16 text lines start_byte);
  line ← unwrap (byte_to_line text lines start_byte);
  edit_update text lines start_utf16 line replace with_.
End Edit.

(* ------------------------------------------------------------------ *)
(** ** The snapshot: [Source(Arc<Repr>)] and copy-on-write *)

Module Snapshot.
Section Snapshot.
(** The syntax tree and the file id are opaque here; parsing,
    numbering and reparsing are the external collaborators. *)
Context {SyntaxNode FileId : Type}.
(** [is_newline] of the lexer. *)
Variable is_newline : char -> bool.
Variable parse : list char -> SyntaxNode.
(** [SyntaxNode::numberize(id, Span::FULL)]: [None] is its [Err]. *)
Variable numberize : FileId -> SyntaxNode -> option SyntaxNode.
(** [reparse(root, text, replaced, replacement_len)]: the patched root
    and the reparsed range. *)
Variable reparse : SyntaxNode -> list char -> nat * nat -> nat -> SyntaxNode * (nat * nat).

(** [struct Repr]. *)
Record Repr := mkRepr {
  repr_id : FileId;
  repr_text : list char;
  repr_root : SyntaxNode;
  repr_lines : list Line;
}.

(** The [Arc] allocations: location to (strong count, value).  A
    [Source] handle is a location. *)
Local Abbreviation heap := (gmap nat (nat * Repr)).

(** [Source::clone] = [Arc::clone]: one more strong reference. *)
Definition arc_clone (h : heap) (p : nat) : outcome heap :=
  match h !! p with
  | Some (n, r) => Ret (<[p := (S n, r)]> h)
  | None => Panic      (* a handle always points to a live allocation *)
  end.

(** [Arc::make_mut]: in place when the count is 1; otherwise the [Repr]
    is cloned into a new allocation, the old one loses a reference and
    the handle is redirected. *)
Definition make_mut (h : heap) (p : nat) : outcome (heap * nat) :=
  match h !! p with
  | Some (n, r) =>
      if n =? 1 then Ret (h, p)
      else
        let q := fresh (dom h) in
        Ret (<[q := (1, r)]> (<[p := (n - 1, r)]> h), q)
  | None => Panic
  end.

(** [Source::new]: a fresh allocation. *)
Definition source_new (h : heap) (id : FileId) (text : list char)
  : outcome (heap * nat) :=
  match numberize id (parse text) with
  | None => Panic      (* .unwrap() *)
  | Some root =>
      let p := fresh (dom h) in
      Ret (<[p := (1, mkRepr id text root (lines is_newline text))]> h, p)
  end.

(** [Source::replace]. *)
Definition source_replace (h : heap) (p : nat) (text : list char)
  : outcome (heap * nat) :=
  '(h1, q) ← make_mut h p;
  match h1 !! q with
  | None => Panic
  | Some (n, inner) =>
      match numberize (repr_id inner) (parse text) with
      | None => Panic
      | Some root =>
          Ret (<[q := (n, mkRepr (repr_id inner) text root (lines is_newline text))]> h1, q)
      end
  end.

(** [Source::edit]: the new heap, the handle's location after
    [make_mut], and the reparsed range. *)
Definition source_edit (h : heap) (p : nat) (replace : nat * nat)
    (with_ : list char) : outcome (heap * nat * (nat * nat)) :=
  match h !! p with
  | None => Panic
  | Some (_, r) =>
      let start_byte := fst replace in
      start_utf16 ← unwrap (byte_to_utf16 (repr_text r) (repr_lines r) start_byte);
      line ← unwrap (byte_to_line (repr_text r) (repr_lines r) start_byte);
      '(h1, q) ← make_mut h p;
      match h1 !! q with
      | None => Panic
      | Some (n, inner) =>
          '(text', lines') ← edit_update is_newline (repr_text inner) (repr_lines inner)
                               start_utf16 line replace with_;
          let rp := reparse (repr_root inner) text' replace (len_bytes with_) in
          Ret (<[q := (n, mkRepr (repr_id inner) text' (fst rp) lines')]> h1, q, snd rp)
      end
  end.
End Snapshot.
End Snapshot.

(* ------------------------------------------------------------------ *)
(** ** The spec's line splitting rule, read from its words *)

(** A new line starts immediately after [c] when [c] is [\n], or [\r] not
    followed by [\n]. *)
Definition terminator (c : char) (rest : list char) : Prop :=
  c = LF \/ (c = CR /\ hd_error rest <> Some LF).

(** Byte offset [p] starts a line of [T]. *)
Definition line_start (T : list char) (p : nat) : Prop :=
  p = 0 \/
  exists pre c rest, T = pre ++ c :: rest /\ p = len_bytes pre + len_utf8 c
                     /\ terminator c rest.

(** Some line of [s] starts at [off] plus the byte offset in [s]
    right after a terminator. *)
Definition line_start_from (off : nat) (s : list char) (p : nat) : Prop :=
  exists pre c rest, s = pre ++ c :: rest /\ p = off + len_bytes pre + len_utf8 c
                     /\ terminator c rest.

(** The number of line terminators of [T]. *)
Fixpoint count_breaks (T : list char) : nat :=
  match T with
  | [] => 0
  | c :: T' =>
      (if char_eqb c LF || (char_eqb c CR && negb (starts_with_lf T')) then 1 else 0)
      + count_breaks T'
  end.

(* ------------------------------------------------------------------ *)
(** ** Line tables as prefix sums of line segments *)

(** The records of a table whose lines are the segments [segs] (each with
    its terminator), the first one starting at [(b, u)]. *)
Fixpoint starts (b u : nat) (segs : list (list char)) : list Line :=
  match segs with
  | [] => []
  | s :: r => mkLine b u :: starts (b + len_bytes s) (u + len_utf16_str s) r
  end.

(** Every segment but the last is non-empty, and there is a last one. *)
Fixpoint segs_ok (segs : list (list char)) : Prop :=
  match segs with
  | [] => False
  | s :: r => match r with [] => True | _ :: _ => s <> [] /\ segs_ok r end
  end.

Fixpoint psums (mu : list char -> nat) (x : nat) (segs : list (list char)) : list nat :=
  match segs with
  | [] => []
  | s :: r => x :: psums mu (x + mu s) r
  end.

(** Incremental update and full rebuild agree on an edit. *)
Definition edit_agrees (prev : list char) (replace : nat * nat) (with_ after : list char) : Prop :=
  edit_index is_newline_spec prev (lines is_newline_spec prev) replace with_ = Ret (after, lines is_newline_spec after).

(** The module's test string ["ä\tcde\nf💛g\r\nhi\rjkl"]. *)
Definition TEST : list char :=
  [228; 9; 99; 100; 101; 10; 102; 128155; 103; 13; 10; 104; 105; 13; 106;
   107; 108]%N.


Example test_source_file_new :
  lines is_newline_spec TEST = [mkLine 0 0; mkLine 7 6; mkLine 15 12; mkLine 18 15].
Proof. reflexivity. Qed.

(** The module's tests, replayed. *)
Example test_source_file_pos_to_line :
  map (byte_to_line TEST (lines is_newline_spec TEST)) [0; 2; 6; 7; 8; 12; 21; 22]
  = [Ret (Some 0); Ret (Some 0); Ret (Some 0); Ret (Some 1); Ret (Some 1);
     Ret (Some 1); Ret (Some 3); Ret None].
Proof. reflexivity. Qed.

Example test_source_file_pos_to_column :
  map (byte_to_column TEST (lines is_newline_spec TEST)) [0; 2; 6; 7; 8; 12]
  = map (fun n => Ret (Some n)) [0; 1; 5; 0; 1; 2].
Proof. reflexivity. Qed.

Example test_source_file_utf16 :
  map (byte_to_utf16 TEST (lines is_newline_spec TEST)) [0; 2; 3; 8; 12; 21; 22]
  = [Ret (Some 0); Ret (Some 1); Ret (Some 2); Ret (Some 7); Ret (Some 9);
     Ret (Some 18); Ret None]
  /\ map (utf16_to_byte TEST (lines is_newline_spec TEST)) [0; 1; 2; 7; 9; 18; 19]
  = [Ret (Some 0); Ret (Some 2); Ret (Some 3); Ret (Some 8); Ret (Some 12);
     Ret (Some 21); Ret None].
Proof. split; reflexivity. Qed.

Example test_source_file_roundtrip :
  map (fun b => line_column_to_byte TEST (lines is_newline_spec TEST) (match byte_to_line TEST (lines is_newline_spec TEST) b with Ret (Some l) => l | _ => 0 end)
         (match byte_to_column TEST (lines is_newline_spec TEST) b with Ret (Some c) => c | _ => 0 end)) [0; 7; 12; 21]
  = [Some 0; Some 7; Some 12; Some 21].
Proof. reflexivity. Qed.

Example test_source_file_edit :
  edit_agrees [97; 98; 99; 10]%N (0, 0) [104; 105; 10]%N [104; 105; 10; 97; 98; 99; 10]%N
  /\ edit_agrees [10; 97; 98; 99]%N (0, 0) [104; 105; 13]%N [104; 105; 13; 10; 97; 98; 99]%N
  /\ edit_agrees TEST (4, 16) [10060]%N [228; 9; 99; 10060; 105; 13; 106; 107; 108]%N
  /\ edit_agrees [97; 98; 99; 10; 100; 101; 102]%N (7, 7) [104; 105]%N
       [97; 98; 99; 10; 100; 101; 102; 104; 105]%N
  /\ edit_agrees [97; 98; 99; 10; 100; 101; 102; 10]%N (8, 8) [104; 105]%N
       [97; 98; 99; 10; 100; 101; 102; 10; 104; 105]%N
  /\ edit_agrees [97; 98; 99; 10; 100; 101; 102; 13]%N (8, 8) [10; 103; 104; 105]%N
       [97; 98; 99; 10; 100; 101; 102; 13; 10; 103; 104; 105]%N
  /\ edit_agrees TEST (0, 21) [] [].
Proof. unfold edit_agrees; repeat split; reflexivity. Qed.

(* ================================================================== *)
(** * Proofs *)

(* ------------------------------------------------------------------ *)
(** ** Encodings and slicing *)

Lemma len_utf8_pos c : 1 <= len_utf8 c.
Proof. unfold len_utf8; repeat destruct (_ <? _)%N; lia. Qed.

Lemma len_utf16_pos c : 1 <= len_utf16 c.
Proof. unfold len_utf16; destruct (_ =? _)%N; lia. Qed.

Lemma len_bytes_app p q : len_bytes (p ++ q) = len_bytes p + len_bytes q.
Proof. induction p; simpl; lia. Qed.

Lemma len_utf16_str_app p q :
  len_utf16_str (p ++ q) = len_utf16_str p + len_utf16_str q.
Proof. induction p; simpl; lia. Qed.

Lemma len_bytes_pos s : s <> [] -> 0 < len_bytes s.
Proof. destruct s as [|c s]; [congruence|]. simpl. pose proof (len_utf8_pos c). lia. Qed.

Lemma len_utf16_str_pos s : s <> [] -> 0 < len_utf16_str s.
Proof. destruct s as [|c s]; [congruence|]. simpl. pose proof (len_utf16_pos c). lia. Qed.

Lemma split_at_byte_cons c s b :
  0 < b ->
  split_at_byte (c :: s) b =
  if len_utf8 c <=? b then
    match split_at_byte s (b - len_utf8 c) with
    | Some (p, q) => Some (c :: p, q)
    | None => None
    end
  else None.
Proof. destruct b; [lia|reflexivity]. Qed.

Lemma split_at_byte_app p q k :
  split_at_byte (p ++ q) (len_bytes p + k) =
  match split_at_byte q k with Some (x, y) => Some (p ++ x, y) | None => None end.
Proof.
  induction p as [|c p IH].
  - simpl. destruct (split_at_byte q k) as [[x y]|]; reflexivity.
  - cbn [app len_bytes]. pose proof (len_utf8_pos c).
    rewrite split_at_byte_cons by lia.
    replace (len_utf8 c <=? len_utf8 c + len_bytes p + k) with true
      by (symmetry; apply Nat.leb_le; lia).
    replace (len_utf8 c + len_bytes p + k - len_utf8 c) with (len_bytes p + k) by lia.
    rewrite IH. destruct (split_at_byte q k) as [[x y]|]; reflexivity.
Qed.

Lemma split_at_byte_exact p q : split_at_byte (p ++ q) (len_bytes p) = Some (p, q).
Proof.
  rewrite <- (Nat.add_0_r (len_bytes p)), split_at_byte_app.
  destruct q; simpl; rewrite app_nil_r; reflexivity.
Qed.

Lemma split_at_byte_spec s b p q :
  split_at_byte s b = Some (p, q) -> s = p ++ q /\ len_bytes p = b.
Proof.
  revert b p q; induction s as [|c s IH]; intros b p q H.
  - destruct b; simpl in H; inversion H; subst; auto.
  - destruct b as [|b'].
    + simpl in H. inversion H; subst; auto.
    + rewrite split_at_byte_cons in H by lia.
      destruct (len_utf8 c <=? S b') eqn:Hle; [|discriminate].
      apply Nat.leb_le in Hle.
      destruct (split_at_byte s (S b' - len_utf8 c)) as [[x y]|] eqn:E;
        [|discriminate].
      inversion H; subst. apply IH in E as [-> E]. simpl. split; [reflexivity|lia].
Qed.

Lemma is_char_boundary_spec s b :
  is_char_boundary s b = true <-> exists p q, s = p ++ q /\ len_bytes p = b.
Proof.
  unfold is_char_boundary. split.
  - destruct (split_at_byte s b) as [[p q]|] eqn:E; [|discriminate].
    intros _. apply split_at_byte_spec in E. eauto.
  - intros (p & q & -> & <-). rewrite split_at_byte_exact. reflexivity.
Qed.

Lemma str_get_mid A m Q :
  str_get (A ++ m ++ Q) (len_bytes A) (len_bytes A + len_bytes m) = Some m.
Proof.
  unfold str_get.
  replace (len_bytes A <=? len_bytes A + len_bytes m) with true
    by (symmetry; apply Nat.leb_le; lia).
  rewrite split_at_byte_exact.
  replace (len_bytes A + len_bytes m - len_bytes A) with (len_bytes m) by lia.
  rewrite split_at_byte_exact. reflexivity.
Qed.

(** A slice into the middle of a character is refused. *)
Lemma str_get_not_boundary T A R b :
  T = A ++ R -> len_bytes A <= b -> is_char_boundary T b = false ->
  str_get T (len_bytes A) b = None.
Proof.
  intros -> Hle Hb. unfold str_get.
  replace (len_bytes A <=? b) with true by (symmetry; apply Nat.leb_le; lia).
  rewrite split_at_byte_exact.
  destruct (split_at_byte R (b - len_bytes A)) as [[x y]|] eqn:E; [|reflexivity].
  apply split_at_byte_spec in E as [-> E].
  exfalso. assert (is_char_boundary (A ++ x ++ y) b = true) as Hc.
  { apply is_char_boundary_spec. exists (A ++ x), y.
    rewrite app_assoc, len_bytes_app. split; [reflexivity|lia]. }
  congruence.
Qed.

(* ------------------------------------------------------------------ *)
(** ** Prefix sums and the search over them *)

Lemma starts_length b u segs : length (starts b u segs) = length segs.
Proof. revert b u; induction segs; simpl; auto. Qed.

Lemma starts_lookup segs : forall b u i s,
  segs !! i = Some s ->
  starts b u segs !! i =
  Some (mkLine (b + len_bytes (concat (take i segs)))
               (u + len_utf16_str (concat (take i segs)))).
Proof.
  induction segs as [|s0 segs IH]; intros b u i s H; [discriminate|].
  destruct i as [|i]; simpl.
  - f_equal. f_equal; lia.
  - simpl in H. rewrite (IH _ _ _ _ H).
    rewrite len_bytes_app, len_utf16_str_app. f_equal. f_equal; lia.
Qed.

Lemma starts_map_byte b u segs :
  map byte_idx (starts b u segs) = psums len_bytes b segs.
Proof. revert b u; induction segs; simpl; intros; f_equal; auto. Qed.

Lemma starts_map_utf16 b u segs :
  map utf16_idx (starts b u segs) = psums len_utf16_str u segs.
Proof. revert b u; induction segs; simpl; intros; f_equal; auto. Qed.

Lemma binary_search_by_key_map {A} key (f : A -> nat) l :
  binary_search_by_key key f l = binary_search_by_key key id (map f l).
Proof. induction l; simpl; [reflexivity|]. rewrite IHl. reflexivity. Qed.

Lemma binary_search_by_key_cons key x l :
  binary_search_by_key key id (x :: l) =
  if x <? key then search_shift (binary_search_by_key key id l)
  else if x =? key then Ok 0 else Err 0.
Proof. reflexivity. Qed.

Lemma line_of_search_shift r j :
  line_of_search r = Ret j -> line_of_search (search_shift r) = Ret (S j).
Proof. destruct r as [i|[|i]]; simpl; intros H; inversion H; reflexivity. Qed.

(** Every record of a table built on segments lies at a prefix of the text. *)
Lemma starts_prefixes segs : forall X,
  Forall (fun line => exists A R, X ++ concat segs = A ++ R /\
                                  line = mkLine (len_bytes A) (len_utf16_str A))
         (starts (len_bytes X) (len_utf16_str X) segs).
Proof.
  induction segs as [|s segs IH]; intros X; simpl; constructor.
  - exists X, (s ++ concat segs). auto.
  - rewrite <- len_bytes_app, <- len_utf16_str_app.
    specialize (IH (X ++ s)). rewrite <- app_assoc in IH. exact IH.
Qed.

Section Psums.
Variable mu : list char -> nat.
Hypothesis mu_app : forall a b, mu (a ++ b) = mu a + mu b.
Hypothesis mu_pos : forall s, s <> [] -> 0 < mu s.

Lemma mu_nil : mu [] = 0.
Proof. pose proof (mu_app [] []) as H. simpl in H. lia. Qed.

Lemma psums_ge : forall segs x, Forall (fun y => x <= y) (psums mu x segs).
Proof.
  induction segs as [|s segs IH]; intros x; simpl; [constructor|].
  constructor; [lia|].
  eapply Forall_impl; [apply IH|]. simpl. lia.
Qed.

Lemma psums_le : forall segs x,
  Forall (fun y => y <= x + mu (concat segs)) (psums mu x segs).
Proof.
  induction segs as [|s segs IH]; intros x; simpl; [constructor|].
  constructor; [lia|].
  eapply Forall_impl; [apply IH|]. simpl. rewrite mu_app. lia.
Qed.

Lemma psums_sorted : forall segs x, segs_ok segs -> StronglySorted lt (psums mu x segs).
Proof.
  induction segs as [|s segs IH]; intros x Hok; [contradiction|].
  simpl. constructor.
  - destruct segs as [|s' segs]; [constructor|]. apply IH. apply Hok.
  - destruct segs as [|s' segs]; [constructor|].
    destruct Hok as [Hs _]. pose proof (mu_pos s Hs).
    eapply Forall_impl; [apply psums_ge|]. simpl. lia.
Qed.

(** The search for the measure of a prefix that ends inside segment [i]
    (or at the end of the last one) lands on record [i]. *)
Lemma psums_cons x s r : psums mu x (s :: r) = x :: psums mu (x + mu s) r.
Proof. reflexivity. Qed.

Lemma search_psums : forall segs x i m r,
  segs_ok segs -> segs !! i = Some (m ++ r) -> (r <> [] \/ S i = length segs) ->
  line_of_search
    (binary_search_by_key (x + mu (concat (take i segs) ++ m)) id (psums mu x segs))
  = Ret i.
Proof.
  induction segs as [|s segs IH]; intros x i m r Hok Hi Hr; [discriminate|].
  rewrite psums_cons, binary_search_by_key_cons.
  destruct i as [|i].
  - simpl in Hi. inversion Hi; subst s. cbn [take concat]. rewrite app_nil_l.
    destruct m as [|c m].
    + rewrite mu_nil, Nat.add_0_r, Nat.ltb_irrefl, Nat.eqb_refl. reflexivity.
    + assert (0 < mu (c :: m)) by (apply mu_pos; congruence).
      replace (x <? x + mu (c :: m)) with true by (symmetry; apply Nat.ltb_lt; lia).
      rewrite mu_app.
      destruct segs as [|s' segs]; [reflexivity|].
      destruct Hr as [Hr|Hr]; [|simpl in Hr; lia].
      assert (0 < mu r) by (apply mu_pos; exact Hr).
      rewrite psums_cons, binary_search_by_key_cons.
      replace (x + (mu (c :: m) + mu r) <? x + mu (c :: m)) with false
        by (symmetry; apply Nat.ltb_ge; lia).
      replace (x + (mu (c :: m) + mu r) =? x + mu (c :: m)) with false
        by (symmetry; apply Nat.eqb_neq; lia).
      reflexivity.
  - destruct segs as [|s' segs]; [destruct i; discriminate|].
    destruct Hok as [Hs Hok].
    assert (0 < mu s) by (apply mu_pos; exact Hs).
    cbn [take concat] in *. rewrite <- app_assoc, mu_app.
    replace (x <? x + (mu s + mu (concat (take i (s' :: segs)) ++ m))) with true
      by (symmetry; apply Nat.ltb_lt; lia).
    apply line_of_search_shift.
    replace (x + (mu s + mu (concat (take i (s' :: segs)) ++ m)))
      with (x + mu s + mu (concat (take i (s' :: segs)) ++ m)) by lia.
    apply (IH (x + mu s) i m r Hok Hi).
    destruct Hr as [Hr|Hr]; [left; exact Hr|right; simpl in *; lia].
Qed.

Lemma psums_facts segs :
  segs_ok segs ->
  exists l, psums mu 0 segs = 0 :: l /\ StronglySorted lt (0 :: l)
            /\ Forall (fun y => y <= mu (concat segs)) (0 :: l).
Proof.
  intros Hok. destruct segs as [|s r]; [contradiction|].
  exists (psums mu (0 + mu s) r). split; [reflexivity|]. split.
  - apply (psums_sorted (s :: r) 0 Hok).
  - apply (psums_le (s :: r) 0).
Qed.
End Psums.

(** The greatest index whose key is at most [key], on a strictly sorted
    list whose head is at most [key]. *)
Lemma search_sorted : forall (l : list nat) x key,
  StronglySorted lt (x :: l) -> x <= key ->
  exists i, line_of_search (binary_search_by_key key id (x :: l)) = Ret i
            /\ (exists y, (x :: l) !! i = Some y /\ y <= key)
            /\ (forall j y, i < j -> (x :: l) !! j = Some y -> key < y).
Proof.
  induction l as [|x' l IH]; intros x key Hs Hx.
  - exists 0. simpl. unfold id.
    split; [|split; [eauto|intros [|j] y Hj Hy; [lia|discriminate]]].
    destruct (x <? key) eqn:E; [reflexivity|].
    apply Nat.ltb_ge in E. replace (x =? key) with true by (symmetry; apply Nat.eqb_eq; lia).
    reflexivity.
  - apply StronglySorted_inv in Hs as [Hs Hall].
    destruct (Nat.eq_dec x key) as [<-|Hne].
    + exists 0. simpl. unfold id. rewrite Nat.ltb_irrefl, Nat.eqb_refl.
      split; [reflexivity|split; [eauto|]].
      intros [|j] y Hj Hy; [lia|]. simpl in Hy.
      exact (Forall_lookup_1 _ _ _ _ Hall Hy).
    + assert (x < key) as Hlt by lia.
      simpl. unfold id at 1. rewrite (proj2 (Nat.ltb_lt _ _) Hlt).
      destruct (Nat.le_gt_cases x' key) as [Hle|Hgt].
      * destruct (IH x' key Hs Hle) as (i & Hi & Hy & Hj).
        exists (S i). split; [apply line_of_search_shift, Hi|].
        split; [exact Hy|]. intros [|j] y Hij Hjy; [lia|]. apply (Hj j y); [lia|exact Hjy].
      * exists 0. split.
        { simpl. unfold id. replace (x' <? key) with false by (symmetry; apply Nat.ltb_ge; lia).
          replace (x' =? key) with false by (symmetry; apply Nat.eqb_neq; lia). reflexivity. }
        split; [exists x; split; [reflexivity|lia]|].
        intros [|j] y Hj Hy; [lia|]. simpl in Hy.
        destruct j as [|j]; [simpl in Hy; inversion Hy; lia|].
        apply StronglySorted_inv in Hs as [_ Hall'].
        simpl in Hy. pose proof (Forall_lookup_1 _ _ _ _ Hall' Hy). simpl in *. lia.
Qed.

(* ------------------------------------------------------------------ *)
(** ** The line table of [lines] as segments *)

Lemma segs_locate : forall segs P Q,
  segs_ok segs -> concat segs = P ++ Q ->
  exists i m r, segs !! i = Some (m ++ r) /\ P = concat (take i segs) ++ m
                /\ (r <> [] \/ S i = length segs).
Proof.
  induction segs as [|s segs IH]; intros P Q Hok Heq; [contradiction|].
  simpl in Heq. apply app_eq_app in Heq as [l [[Hs HQ]|[HP Hc]]].
  - (* P ends inside s *)
    destruct l as [|c l].
    + rewrite app_nil_r in Hs. subst s.
      destruct segs as [|s' segs].
      * exists 0, P, []. rewrite app_nil_r. simpl. auto.
      * destruct Hok as [Hs Hok].
        destruct (IH [] (concat (s' :: segs)) Hok eq_refl) as (i & m & r & Hi & Hm & Hr).
        exists (S i), m, r. simpl. split; [exact Hi|]. split.
        { rewrite <- app_assoc, <- Hm, app_nil_r. reflexivity. }
        destruct Hr as [Hr|Hr]; [left; exact Hr|right; simpl in *; lia].
    + exists 0, P, (c :: l). simpl. subst s. split; [reflexivity|]. split; [reflexivity|].
      left. discriminate.
  - (* P runs past s *)
    subst P. destruct segs as [|s' segs].
    + simpl in Hc. symmetry in Hc. apply app_eq_nil in Hc as [-> ->].
      exists 0, s, []. rewrite !app_nil_r. simpl. auto.
    + destruct Hok as [Hs Hok].
      destruct (IH l Q Hok Hc) as (i & m & r & Hi & Hm & Hr).
      exists (S i), m, r. simpl. split; [exact Hi|]. split.
      { rewrite Hm, app_assoc. reflexivity. }
      destruct Hr as [Hr|Hr]; [left; exact Hr|right; simpl in *; lia].
Qed.

Lemma starts_cons_tl b u segs :
  segs <> [] -> mkLine b u :: tl (starts b u segs) = starts b u segs.
Proof. destruct segs; [congruence|reflexivity]. Qed.

Lemma starts_cons_tl' b u b' u' segs :
  segs <> [] -> b = b' -> u = u' -> mkLine b u :: tl (starts b u segs) = starts b' u' segs.
Proof. intros H -> ->. apply starts_cons_tl, H. Qed.

Lemma segs_ok_cons s r : segs_ok r -> s <> [] -> segs_ok (s :: r).
Proof. destruct r; simpl; auto. Qed.

Lemma segs_ok_nonempty segs : segs_ok segs -> segs <> [].
Proof. destruct segs; simpl; [contradiction|discriminate]. Qed.

Lemma len_LF : len_utf8 LF = 1 /\ len_utf16 LF = 1.
Proof. split; reflexivity. Qed.

Ltac line_arith :=
  simpl;
  repeat match goal with
         | |- _ :: _ = _ :: _ => f_equal
         | |- mkLine _ _ = mkLine _ _ => f_equal
         | |- starts _ _ _ = starts _ _ _ => f_equal
         end;
  lia.

Section Lexer.
Variable is_newline : char -> bool.

(** The scanner cuts the text into segments, each ending after a line
    terminator except the last. *)
Lemma lines_scan_segs : forall n T off cur u,
  length T <= n ->
  exists segs, segs_ok segs /\ concat segs = T
               /\ lines_scan is_newline off cur u T = tl (starts (off + cur) u segs).
Proof.
  induction n as [|n IH]; intros T off cur u Hlen.
  { destruct T; [|simpl in Hlen; lia]. exists [[]]. simpl. auto. }
  destruct T as [|c T]. { exists [[]]. simpl. auto. }
  simpl in Hlen. cbn [lines_scan].
  destruct (is_newline c) eqn:Hnl.
  - destruct (char_eqb c CR) eqn:Hcr.
    + destruct T as [|c' T'].
      * exists [[c]; []]. simpl. split; [split; [discriminate|exact I]|].
        split; [reflexivity|]. line_arith.
      * destruct (char_eqb c' LF) eqn:Hlf.
        -- apply N.eqb_eq in Hlf. subst c'. simpl in Hlen.
           destruct (IH T' off (cur + len_utf8 c + 1) (u + len_utf16 c + 1))
             as (segs & Hok & Hc & Hs); [lia|].
           exists ([c; LF] :: segs).
           split; [apply segs_ok_cons; [exact Hok|discriminate]|].
           split; [simpl; rewrite Hc; reflexivity|].
           rewrite Hs. simpl.
           apply starts_cons_tl'; [apply segs_ok_nonempty, Hok|lia|lia].
        -- destruct (IH (c' :: T') off (cur + len_utf8 c) (u + len_utf16 c))
             as (segs & Hok & Hc & Hs); [simpl in *; lia|].
           exists ([c] :: segs).
           split; [apply segs_ok_cons; [exact Hok|discriminate]|].
           split; [simpl; rewrite Hc; reflexivity|].
           rewrite Hs. simpl.
           apply starts_cons_tl'; [apply segs_ok_nonempty, Hok|lia|lia].
    + destruct (IH T off (cur + len_utf8 c) (u + len_utf16 c))
        as (segs & Hok & Hc & Hs); [simpl in *; lia|].
      exists ([c] :: segs).
      split; [apply segs_ok_cons; [exact Hok|discriminate]|].
      split; [simpl; rewrite Hc; reflexivity|].
      rewrite Hs. simpl.
      apply starts_cons_tl'; [apply segs_ok_nonempty, Hok|lia|lia].
  - destruct (IH T off (cur + len_utf8 c) (u + len_utf16 c))
      as (segs & Hok & Hc & Hs); [simpl in *; lia|].
    destruct segs as [|s r]; [contradiction|].
    exists ((c :: s) :: r).
    split.
    { destruct r as [|s' r]; [exact I|]. split; [discriminate|apply Hok]. }
    split; [simpl in *; rewrite Hc; reflexivity|].
    rewrite Hs. simpl. line_arith.
Qed.

Lemma lines_segs T :
  exists segs, segs_ok segs /\ concat segs = T /\ lines is_newline T = starts 0 0 segs.
Proof.
  destruct (lines_scan_segs (length T) T 0 0 0 (le_n _)) as (segs & Hok & Hc & Hs).
  exists segs. split; [exact Hok|]. split; [exact Hc|].
  unfold lines, lines_from. rewrite Hs. apply starts_cons_tl, segs_ok_nonempty, Hok.
Qed.

(* ------------------------------------------------------------------ *)
(** ** The queries on a table built from segments *)

Lemma lookup_map {A B} (f : A -> B) (l : list A) i :
  map f l !! i = option_map f (l !! i).
Proof. revert i; induction l; intros [|i]; simpl; auto. Qed.

Lemma chars_advance_drop n s : chars_advance n s = drop n s.
Proof.
  revert s; induction n as [|n IH]; intros s; [reflexivity|].
  simpl. rewrite IH. destruct s; [destruct n|]; reflexivity.
Qed.

Lemma utf16_scan_app key D : forall R k i,
  k + len_utf16_str D <= key ->
  utf16_scan key k i (D ++ R) =
  utf16_scan key (k + len_utf16_str D) (i + len_bytes D) R.
Proof.
  induction D as [|d D IH]; intros R k i Hle; simpl.
  - rewrite !Nat.add_0_r. reflexivity.
  - simpl in Hle. pose proof (len_utf16_pos d).
    replace (key <=? k) with false by (symmetry; apply Nat.leb_gt; lia).
    rewrite IH by lia. f_equal; lia.
Qed.

(** Two prefixes of one text: the shorter (by bytes) is a prefix of the
    longer. *)
Lemma prefix_by_bytes P Q P' Q' :
  P ++ Q = P' ++ Q' -> len_bytes P <= len_bytes P' -> exists m, P' = P ++ m.
Proof.
  intros Heq Hle. apply app_eq_app in Heq as [l [[HP _]|[HP _]]].
  - destruct l as [|c l].
    + exists []. rewrite app_nil_r in *. congruence.
    + subst P. rewrite len_bytes_app in Hle. simpl in Hle.
      pose proof (len_utf8_pos c). lia.
  - eauto.
Qed.

Lemma concat_middle (segs : list (list char)) i s :
  segs !! i = Some s ->
  concat segs = concat (take i segs) ++ s ++ concat (drop (S i) segs).
Proof.
  intros H. rewrite <- (take_drop_middle segs i s H) at 1.
  rewrite concat_app. reflexivity.
Qed.

Section Table.
(** A line table [starts 0 0 segs] for the text [concat segs]. *)
Variable segs : list (list char).
Hypothesis Hok : segs_ok segs.

Let T := concat segs.
Let tb := starts 0 0 segs.

Lemma table_lookup i s :
  segs !! i = Some s ->
  tb !! i = Some (mkLine (len_bytes (concat (take i segs)))
                         (len_utf16_str (concat (take i segs)))).
Proof. intros H. unfold tb. rewrite (starts_lookup _ _ _ _ _ H). reflexivity. Qed.

Lemma table_prefixes i line :
  tb !! i = Some line ->
  exists A R, T = A ++ R /\ line = mkLine (len_bytes A) (len_utf16_str A).
Proof.
  intros H. pose proof (starts_prefixes segs []) as Hf. simpl in Hf.
  exact (Forall_lookup_1 _ _ _ _ Hf H).
Qed.

Lemma table_sorted_bytes :
  exists l, map byte_idx tb = 0 :: l /\ StronglySorted lt (0 :: l)
            /\ Forall (fun y => y <= len_bytes T) (0 :: l).
Proof.
  unfold tb, T. rewrite starts_map_byte.
  apply (psums_facts len_bytes len_bytes_app len_bytes_pos _ Hok).
Qed.

Lemma table_sorted_utf16 :
  exists l, map utf16_idx tb = 0 :: l /\ StronglySorted lt (0 :: l)
            /\ Forall (fun y => y <= len_utf16_str T) (0 :: l).
Proof.
  unfold tb, T. rewrite starts_map_utf16.
  apply (psums_facts len_utf16_str len_utf16_str_app len_utf16_str_pos _ Hok).
Qed.

(** [byte_to_line] for any index up to the end. *)
Lemma table_byte_to_line b :
  b <= len_bytes T ->
  exists i, byte_to_line T tb b = Ret (Some i)
            /\ (exists line, tb !! i = Some line /\ byte_idx line <= b)
            /\ (forall j line', i < j -> tb !! j = Some line' -> b < byte_idx line').
Proof.
  intros Hb. destruct table_sorted_bytes as (l & Hm & Hs & _).
  destruct (search_sorted l 0 b Hs (Nat.le_0_l _)) as (i & Hi & (y & Hy & Hyb) & Hj).
  exists i. unfold byte_to_line.
  replace (b <=? len_bytes T) with true by (symmetry; apply Nat.leb_le; exact Hb).
  rewrite binary_search_by_key_map, Hm, Hi. split; [reflexivity|].
  rewrite <- Hm, lookup_map in Hy.
  split.
  - destruct (tb !! i) as [line|]; [|discriminate]. simpl in Hy. inversion Hy; subst.
    eauto.
  - intros j line' Hij Hj'. apply (Hj j); [exact Hij|].
    rewrite <- Hm, lookup_map, Hj'. reflexivity.
Qed.

(** [utf16_to_byte] lands on some record at or below the index. *)
Lemma table_utf16_search u :
  exists i line, line_of_search (binary_search_by_key u utf16_idx tb) = Ret i
                 /\ tb !! i = Some line /\ utf16_idx line <= u.
Proof.
  destruct table_sorted_utf16 as (l & Hm & Hs & _).
  destruct (search_sorted l 0 u Hs (Nat.le_0_l _)) as (i & Hi & (y & Hy & Hyb) & _).
  rewrite <- Hm, lookup_map in Hy.
  destruct (tb !! i) as [line|] eqn:E; [|discriminate]. simpl in Hy. inversion Hy; subst.
  exists i, line. rewrite binary_search_by_key_map, Hm, Hi. auto.
Qed.
End Table.

Section TablePrefix.
Variable segs : list (list char).
Hypothesis Hok : segs_ok segs.

Let T := concat segs.
Let tb := starts 0 0 segs.

(** A character boundary [P] of the text lies in line [i], [m] bytes in. *)
Lemma table_at_prefix P Q :
  T = P ++ Q ->
  exists i m r,
    segs !! i = Some (m ++ r) /\ P = concat (take i segs) ++ m
    /\ (r <> [] \/ S i = length segs)
    /\ byte_to_line T tb (len_bytes P) = Ret (Some i)
    /\ line_of_search (binary_search_by_key (len_utf16_str P) utf16_idx tb) = Ret i.
Proof.
  intros HT.
  destruct (segs_locate segs P Q Hok HT) as (i & m & r & Hi & HP & Hr).
  exists i, m, r. split; [exact Hi|]. split; [exact HP|]. split; [exact Hr|].
  split.
  - unfold byte_to_line.
    replace (len_bytes P <=? len_bytes T) with true
      by (symmetry; apply Nat.leb_le; rewrite HT, len_bytes_app; lia).
    unfold tb. rewrite binary_search_by_key_map, starts_map_byte, HP.
    rewrite <- (Nat.add_0_l (len_bytes (concat (take i segs) ++ m))).
    rewrite (search_psums len_bytes len_bytes_app len_bytes_pos segs 0 i m r Hok Hi Hr).
    reflexivity.
  - unfold tb. rewrite binary_search_by_key_map, starts_map_utf16, HP.
    rewrite <- (Nat.add_0_l (len_utf16_str (concat (take i segs) ++ m))).
    exact (search_psums len_utf16_str len_utf16_str_app len_utf16_str_pos segs 0 i m r
             Hok Hi Hr).
Qed.

Lemma table_byte_to_utf16 P Q :
  T = P ++ Q -> byte_to_utf16 T tb (len_bytes P) = Ret (Some (len_utf16_str P)).
Proof.
  intros HT.
  destruct (table_at_prefix P Q HT) as (i & m & r & Hi & HP & _ & Hl & _).
  unfold byte_to_utf16. rewrite Hl. simpl.
  unfold tb. rewrite (starts_lookup _ _ _ _ _ Hi). simpl.
  rewrite HT, HP, <- app_assoc, len_bytes_app, str_get_mid, len_utf16_str_app.
  reflexivity.
Qed.

Lemma table_utf16_to_byte P Q :
  T = P ++ Q -> utf16_to_byte T tb (len_utf16_str P) = Ret (Some (len_bytes P)).
Proof.
  intros HT.
  destruct (table_at_prefix P Q HT) as (i & m & r & Hi & HP & _ & _ & Hs).
  unfold utf16_to_byte. rewrite Hs. simpl.
  unfold tb. rewrite (starts_lookup _ _ _ _ _ Hi). simpl.
  unfold slice_from. rewrite HT, HP, <- app_assoc, split_at_byte_exact. simpl.
  rewrite len_utf16_str_app, utf16_scan_app by lia. simpl.
  destruct Q as [|c Q]; cbn [utf16_scan].
  - rewrite Nat.eqb_refl, !app_nil_r. reflexivity.
  - rewrite Nat.leb_refl, len_bytes_app. reflexivity.
Qed.

Lemma table_byte_to_column P Q :
  T = P ++ Q ->
  exists i m r, segs !! i = Some (m ++ r) /\ P = concat (take i segs) ++ m
    /\ byte_to_line T tb (len_bytes P) = Ret (Some i)
    /\ byte_to_column T tb (len_bytes P) = Ret (Some (length m)).
Proof.
  intros HT.
  destruct (table_at_prefix P Q HT) as (i & m & r & Hi & HP & _ & Hl & _).
  exists i, m, r. split; [exact Hi|]. split; [exact HP|]. split; [exact Hl|].
  unfold byte_to_column. rewrite Hl. simpl. unfold line_to_byte.
  unfold tb. rewrite (starts_lookup _ _ _ _ _ Hi). simpl.
  rewrite HT, HP, <- app_assoc, len_bytes_app, str_get_mid. reflexivity.
Qed.

(** Line [i] spans its segment. *)
Lemma table_line_range i s :
  segs !! i = Some s ->
  line_to_range T tb i = Some (len_bytes (concat (take i segs)),
                               len_bytes (concat (take i segs)) + len_bytes s)
  /\ str_get T (len_bytes (concat (take i segs)))
             (len_bytes (concat (take i segs)) + len_bytes s) = Some s.
Proof.
  intros Hi. split.
  - unfold line_to_range, line_to_byte, tb.
    rewrite (starts_lookup _ _ _ _ _ Hi). simpl. f_equal. f_equal.
    destruct (segs !! (i + 1)) as [s'|] eqn:E.
    + rewrite (starts_lookup _ _ _ _ _ E). simpl.
      rewrite Nat.add_1_r, (take_S_r _ _ _ Hi), concat_app, len_bytes_app. simpl.
      rewrite app_nil_r. reflexivity.
    + replace (starts 0 0 segs !! (i + 1)) with (@None Line).
      2:{ symmetry. apply lookup_ge_None. rewrite starts_length.
          apply lookup_ge_None in E. exact E. }
      unfold T. rewrite (concat_middle segs i s Hi), !len_bytes_app.
      apply lookup_ge_None in E.
      rewrite (drop_ge segs (S i)) by lia. simpl. lia.
  - unfold T. rewrite (concat_middle segs i s Hi). apply str_get_mid.
Qed.
End TablePrefix.

(* ------------------------------------------------------------------ *)
(** ** Line tables of [lines] *)

Lemma lines_prefixes T i line :
  lines is_newline T !! i = Some line ->
  exists A R, T = A ++ R /\ line = mkLine (len_bytes A) (len_utf16_str A).
Proof.
  destruct (lines_segs T) as (segs & Hok & <- & ->). apply table_prefixes.
Qed.

Lemma lines_byte_to_line T b :
  b <= len_bytes T ->
  exists i, byte_to_line T (lines is_newline T) b = Ret (Some i)
            /\ (exists line, lines is_newline T !! i = Some line /\ byte_idx line <= b)
            /\ (forall j line', i < j -> lines is_newline T !! j = Some line' -> b < byte_idx line').
Proof.
  destruct (lines_segs T) as (segs & Hok & <- & ->). apply table_byte_to_line, Hok.
Qed.

Lemma lines_byte_to_utf16 P Q :
  byte_to_utf16 (P ++ Q) (lines is_newline (P ++ Q)) (len_bytes P) = Ret (Some (len_utf16_str P)).
Proof.
  destruct (lines_segs (P ++ Q)) as (segs & Hok & HT & ->). rewrite <- HT.
  apply (table_byte_to_utf16 segs Hok P Q), HT.
Qed.

Lemma lines_utf16_to_byte P Q :
  utf16_to_byte (P ++ Q) (lines is_newline (P ++ Q)) (len_utf16_str P) = Ret (Some (len_bytes P)).
Proof.
  destruct (lines_segs (P ++ Q)) as (segs & Hok & HT & ->). rewrite <- HT.
  apply (table_utf16_to_byte segs Hok P Q), HT.
Qed.

Lemma byte_to_utf16_beyond T L b :
  len_bytes T < b -> byte_to_utf16 T L b = Ret None.
Proof.
  intros H. unfold byte_to_utf16, byte_to_line.
  replace (b <=? len_bytes T) with false by (symmetry; apply Nat.leb_gt; exact H).
  reflexivity.
Qed.

Lemma lines_byte_to_utf16_mid T b :
  b <= len_bytes T -> is_char_boundary T b = false ->
  byte_to_utf16 T (lines is_newline T) b = Ret None.
Proof.
  intros Hb Hnb.
  destruct (lines_byte_to_line T b Hb) as (i & Hl & (line & Hi & Hle) & _).
  destruct (lines_prefixes T i line Hi) as (A & R & HT & ->).
  unfold byte_to_utf16. rewrite Hl. simpl. rewrite Hi. simpl in *.
  rewrite (str_get_not_boundary T A R b HT Hle Hnb). reflexivity.
Qed.

(* ================================================================== *)
(** * The claims *)

(** C3: for every text [T] and every character boundary [b] of [T]
    (a valid byte offset), [byte_to_utf16] succeeds on [b] and
    [utf16_to_byte] maps its result back to [b]. *)
Theorem byte_to_utf16_roundtrip (T : list char) (b : nat)
    (Hb : is_char_boundary T b = true) :
  exists u, byte_to_utf16 T (lines is_newline T) b = Ret (Some u)
            /\ utf16_to_byte T (lines is_newline T) u = Ret (Some b).
Proof.
  apply is_char_boundary_spec in Hb as (P & Q & -> & <-).
  exists (len_utf16_str P). split; [apply lines_byte_to_utf16|apply lines_utf16_to_byte].
Qed.

(** C4: for every text [T] and every character boundary [b] of [T],
    [byte_to_line] and [byte_to_column] succeed on [b], and
    [line_column_to_byte] maps the pair back to [b]. *)
Theorem line_column_roundtrip (T : list char) (b : nat)
    (Hb : is_char_boundary T b = true) :
  exists l c, byte_to_line T (lines is_newline T) b = Ret (Some l)
              /\ byte_to_column T (lines is_newline T) b = Ret (Some c)
              /\ line_column_to_byte T (lines is_newline T) l c = Some b.
Proof.
  apply is_char_boundary_spec in Hb as (P & Q & HT & <-).
  destruct (lines_segs T) as (segs & Hok & Hc & ->).
  rewrite <- Hc in HT |- *.
  destruct (table_byte_to_column segs Hok P Q HT) as (i & m & r & Hi & HP & Hl & Hcol).
  exists i, (length m). split; [exact Hl|]. split; [exact Hcol|].
  destruct (table_line_range segs i (m ++ r) Hi) as [Hrange Hget].
  unfold line_column_to_byte. rewrite Hrange, Hget, chars_advance_drop, drop_app_length.
  rewrite HP, !len_bytes_app. f_equal. lia.
Qed.

(** C7: [byte_to_line b] returns no result exactly when [b] exceeds the
    byte length of [T]; at [b = len] it returns the last line; for every
    [b <= len] it returns the index of the greatest record whose byte
    offset is at most [b]. *)
Theorem byte_to_line_spec (T : list char) (b : nat) :
  (byte_to_line T (lines is_newline T) b = Ret None <-> len_bytes T < b)
  /\ (b = len_bytes T -> byte_to_line T (lines is_newline T) b = Ret (Some (length (lines is_newline T) - 1)))
  /\ (b <= len_bytes T ->
      exists i, byte_to_line T (lines is_newline T) b = Ret (Some i)
                /\ (exists line, lines is_newline T !! i = Some line /\ byte_idx line <= b)
                /\ (forall j line', i < j -> lines is_newline T !! j = Some line' -> b < byte_idx line')).
Proof.
  assert (Hin : b <= len_bytes T ->
      exists i, byte_to_line T (lines is_newline T) b = Ret (Some i)
                /\ (exists line, lines is_newline T !! i = Some line /\ byte_idx line <= b)
                /\ (forall j line', i < j -> lines is_newline T !! j = Some line' -> b < byte_idx line'))
    by apply lines_byte_to_line.
  split; [|split; [|exact Hin]].
  - split.
    + intros H. destruct (Nat.le_gt_cases b (len_bytes T)) as [Hle|Hgt]; [|exact Hgt].
      destruct (Hin Hle) as (i & Hi & _). congruence.
    + intros H. unfold byte_to_line.
      replace (b <=? len_bytes T) with false by (symmetry; apply Nat.leb_gt; exact H).
      reflexivity.
  - intros ->. destruct (Hin (le_n _)) as (i & Hi & (line & Hl & _) & Hj).
    rewrite Hi. do 2 f_equal.
    pose proof (lookup_lt_Some _ _ _ Hl) as Hlt.
    destruct (Nat.lt_ge_cases (S i) (length (lines is_newline T))) as [HS|HS]; [|lia].
    destruct (lookup_lt_is_Some_2 _ _ HS) as [line' Hl'].
    specialize (Hj (S i) line' (Nat.lt_succ_diag_r _) Hl').
    destruct (lines_prefixes T (S i) line' Hl') as (A & R & HT & ->).
    simpl in Hj. rewrite HT, len_bytes_app in Hj. lia.
Qed.

(** C10: for every text [T] and every byte index [b <= len] that is not
    a character boundary, [byte_to_utf16 b] and [byte_to_column b] return
    [None] (and do not panic). *)
Theorem mid_char_positions_none (T : list char) (b : nat)
    (Hb : b <= len_bytes T) (Hnb : is_char_boundary T b = false) :
  byte_to_utf16 T (lines is_newline T) b = Ret None /\ byte_to_column T (lines is_newline T) b = Ret None.
Proof.
  split; [exact (lines_byte_to_utf16_mid T b Hb Hnb)|].
  destruct (lines_byte_to_line T b Hb) as (i & Hl & (line & Hi & Hle) & _).
  destruct (lines_prefixes T i line Hi) as (A & R & HT & ->).
  unfold byte_to_column. rewrite Hl. simpl. unfold line_to_byte. rewrite Hi. simpl in *.
  rewrite (str_get_not_boundary T A R b HT Hle Hnb). reflexivity.
Qed.

(** [utf16_to_byte] on [lines T]: the walk starts at some record, the
    prefix [A] of [T], at or below the index. *)
Lemma lines_utf16_to_byte_scan T i :
  exists A R, T = A ++ R /\ len_utf16_str A <= i /\
    utf16_to_byte T (lines is_newline T) i =
      match utf16_scan i (len_utf16_str A) 0 R with
      | inl j => Ret (Some (len_bytes A + j))
      | inr k => Ret (if k =? i then Some (len_bytes T) else None)
      end.
Proof.
  destruct (lines_segs T) as (segs & Hok & <- & ->).
  destruct (table_utf16_search segs Hok i) as (li & line & Hs & Hli & Hle).
  destruct (table_prefixes segs li line Hli) as (A & R & HT & ->).
  exists A, R. split; [exact HT|]. split; [exact Hle|].
  unfold utf16_to_byte. rewrite Hs. simpl. rewrite Hli. simpl.
  unfold slice_from. rewrite HT, split_at_byte_exact. reflexivity.
Qed.

(** Where two splittings of one text meet, by UTF-16 length. *)
Lemma prefix_by_utf16 A R p c q i :
  A ++ R = p ++ c :: q -> len_utf16_str A <= i -> i < len_utf16_str p + len_utf16 c ->
  exists D, p = A ++ D.
Proof.
  intros Heq Hle Hlt. apply app_eq_app in Heq as [l [HA|[HA _]]].
  - destruct l as [|c' l].
    + destruct HA as [HA _]. exists []. rewrite app_nil_r in *. congruence.
    + destruct HA as [HA Hc]. simpl in Hc. inversion Hc; subst.
      rewrite len_utf16_str_app in Hle. simpl in Hle. lia.
  - eauto.
Qed.

(** C5 (code bug): [utf16_to_byte i] returns the byte length when [i] is
    the UTF-16 length of [T] and [None] beyond it, but an index inside the
    encoding of a character [c] (inside a surrogate pair) is not rejected
    as a misaligned index should be: the loop stops at the first character
    whose UTF-16 offset is at least [i] and rounds the index up to the
    byte offset after [c]. Only when [c] is the last character does the
    check after the loop give [None]. So ["💛a"] at index 1 gives
    [Some 4] while ["a💛"] at index 2 gives [None], and the sibling
    [byte_to_utf16] rejects every offset inside a character. *)
Theorem utf16_to_byte_bounds (T : list char) :
  utf16_to_byte T (lines is_newline T) (len_utf16_str T) = Ret (Some (len_bytes T))
  /\ (forall i, len_utf16_str T < i -> utf16_to_byte T (lines is_newline T) i = Ret None)
  /\ (forall p c q i, T = p ++ c :: q ->
        len_utf16_str p < i < len_utf16_str p + len_utf16 c ->
        utf16_to_byte T (lines is_newline T) i
        = Ret (match q with [] => None | _ :: _ => Some (len_bytes p + len_utf8 c) end)).
Proof.
  split; [|split].
  - pose proof (lines_utf16_to_byte T []) as H. rewrite app_nil_r in H. exact H.
  - intros i Hi. destruct (lines_utf16_to_byte_scan T i) as (A & R & HT & Hle & ->).
    rewrite <- (app_nil_r R), utf16_scan_app.
    2:{ rewrite HT, len_utf16_str_app in Hi. lia. }
    simpl. replace (len_utf16_str A + len_utf16_str R =? i) with false; [reflexivity|].
    symmetry. apply Nat.eqb_neq. rewrite HT, len_utf16_str_app in Hi. lia.
  - intros p c q i Hp Hi. destruct (lines_utf16_to_byte_scan T i) as (A & R & HT & Hle & ->).
    destruct (prefix_by_utf16 A R p c q i) as [D ->]; [congruence|exact Hle|lia|].
    rewrite HT, <- app_assoc in Hp. apply app_inv_head in Hp. subst R.
    rewrite len_utf16_str_app in Hi.
    rewrite utf16_scan_app by lia. cbn [utf16_scan].
    replace (i <=? len_utf16_str A + len_utf16_str D) with false
      by (symmetry; apply Nat.leb_gt; lia).
    destruct q as [|c' q]; cbn [utf16_scan].
    + replace (len_utf16_str A + len_utf16_str D + len_utf16 c =? i) with false
        by (symmetry; apply Nat.eqb_neq; lia).
      reflexivity.
    + replace (i <=? len_utf16_str A + len_utf16_str D + len_utf16 c) with true
        by (symmetry; apply Nat.leb_le; lia).
      rewrite len_bytes_app. do 2 f_equal. lia.
Qed.

(** C6 (as the code behaves): for a line index [l] past the table the
    result is [None]; for a valid [l], with [start..end_] the range of
    line [l], the result is [start] plus the byte length of the first [c]
    scalars of the line, so it is [end_] when the line has at most [c]
    scalars: the column is clamped to the line's end, never rejected. *)
Theorem line_column_to_byte_clamps (T : list char) (l c : nat) :
  (length (lines is_newline T) <= l -> line_column_to_byte T (lines is_newline T) l c = None)
  /\ (l < length (lines is_newline T) ->
      exists start end_ line,
        line_to_range T (lines is_newline T) l = Some (start, end_)
        /\ str_get T start end_ = Some line
        /\ line_column_to_byte T (lines is_newline T) l c = Some (start + len_bytes (take c line))
        /\ (length line <= c -> line_column_to_byte T (lines is_newline T) l c = Some end_)).
Proof.
  split.
  - intros Hl. unfold line_column_to_byte, line_to_range, line_to_byte.
    rewrite (proj2 (lookup_ge_None _ _) Hl). reflexivity.
  - destruct (lines_segs T) as (segs & Hok & <- & ->). intros Hl.
    rewrite starts_length in Hl.
    destruct (lookup_lt_is_Some_2 _ _ Hl) as [s Hs].
    destruct (table_line_range segs l s Hs) as [Hr Hg].
    eexists _, _, s. split; [exact Hr|]. split; [exact Hg|].
    assert (Hres : line_column_to_byte (concat segs) (starts 0 0 segs) l c
                   = Some (len_bytes (concat (take l segs)) + len_bytes (take c s))).
    { unfold line_column_to_byte. rewrite Hr, Hg, chars_advance_drop.
      rewrite <- (take_drop c s) at 1. rewrite len_bytes_app. do 2 f_equal. lia. }
    split; [exact Hres|].
    intros Hc. rewrite Hres, (take_ge s c) by lia. reflexivity.
Qed.

(* ------------------------------------------------------------------ *)
(** ** When [edit] panics *)

Lemma is_char_boundary_le T b : is_char_boundary T b = true -> b <= len_bytes T.
Proof.
  intros H. apply is_char_boundary_spec in H as (P & Q & -> & <-).
  rewrite len_bytes_app. lia.
Qed.

Lemma edit_index_ok T a b w :
  a <= b -> is_char_boundary T a = true -> is_char_boundary T b = true ->
  exists p m q L, T = p ++ m ++ q /\ len_bytes p = a /\ len_bytes (p ++ m) = b
                  /\ edit_index is_newline T (lines is_newline T) (a, b) w = Ret (p ++ w ++ q, L).
Proof.
  intros Hab Ha Hb.
  apply is_char_boundary_spec in Ha as (P & Q & HT & HP).
  apply is_char_boundary_spec in Hb as (P' & Q' & HT' & HP').
  destruct (prefix_by_bytes P Q P' Q') as [m ->]; [congruence|lia|].
  rewrite <- app_assoc in HT'. clear HT. subst T a b.
  destruct (lines_byte_to_line (P ++ m ++ Q') (len_bytes P)) as (i & Hi & _).
  { rewrite !len_bytes_app. lia. }
  exists P, m, Q'.
  eexists. split; [reflexivity|]. split; [reflexivity|]. split; [reflexivity|].
  unfold edit_index. cbn [fst snd]. rewrite (lines_byte_to_utf16 P (m ++ Q')). simpl. rewrite Hi. simpl.
  unfold edit_update, replace_range. simpl.
  rewrite split_at_byte_exact, (app_assoc P m Q'), split_at_byte_exact, <- (app_assoc P m Q').
  replace (len_bytes P <=? len_bytes (P ++ m)) with true
    by (symmetry; apply Nat.leb_le; rewrite len_bytes_app; lia).
  simpl. unfold slice_to, slice_from. rewrite split_at_byte_exact. simpl.
  reflexivity.
Qed.

Lemma edit_index_bad T a b w :
  ~ (a <= b /\ is_char_boundary T a = true /\ is_char_boundary T b = true) ->
  edit_index is_newline T (lines is_newline T) (a, b) w = Panic.
Proof.
  intros Hn. unfold edit_index. simpl.
  destruct (is_char_boundary T a) eqn:Ha.
  - apply is_char_boundary_spec in Ha as Ha'. destruct Ha' as (P & Q & HT & HP).
    destruct (lines_byte_to_line T a) as (i & Hi & _).
    { rewrite HT, len_bytes_app. lia. }
    subst T a. rewrite lines_byte_to_utf16. simpl. rewrite Hi. simpl.
    unfold edit_update, replace_range. simpl.
    destruct (is_char_boundary (P ++ Q) b) eqn:Hb.
    + rewrite split_at_byte_exact. unfold is_char_boundary in Hb.
      destruct (split_at_byte (P ++ Q) b) as [[x y]|]; [|discriminate].
      destruct (len_bytes P <=? b) eqn:Hab; [|reflexivity].
      apply Nat.leb_le in Hab. exfalso. apply Hn. auto.
    + unfold is_char_boundary in Hb.
      destruct (split_at_byte (P ++ Q) b) as [[x y]|]; [discriminate|].
      rewrite split_at_byte_exact. reflexivity.
  - destruct (Nat.le_gt_cases a (len_bytes T)) as [Hle|Hgt].
    + rewrite (lines_byte_to_utf16_mid T a Hle Ha). reflexivity.
    + rewrite (byte_to_utf16_beyond T (lines is_newline T) a Hgt). reflexivity.
Qed.

(** C8 (as the code behaves): for a snapshot whose table is [lines T],
    [edit (a, b) w] panics exactly when the range is not [a <= b] with
    both ends on character boundaries, so also for ranges inside the
    bounds whose ends split a character; when it returns, the new text is
    [T] with the bytes [a..b] replaced by [w]. *)
Theorem edit_panics_iff_bad_range (T : list char) (a b : nat) (w : list char) :
  (edit_index is_newline T (lines is_newline T) (a, b) w = Panic <->
     ~ (a <= b /\ is_char_boundary T a = true /\ is_char_boundary T b = true))
  /\ (forall T' L', edit_index is_newline T (lines is_newline T) (a, b) w = Ret (T', L') ->
        exists p m q, T = p ++ m ++ q /\ len_bytes p = a /\ len_bytes (p ++ m) = b
                      /\ T' = p ++ w ++ q).
Proof.
  split.
  - split.
    + intros HP (Hab & Ha & Hb).
      destruct (edit_index_ok T a b w Hab Ha Hb) as (p & m & q & L & _ & _ & _ & HR).
      congruence.
    + apply edit_index_bad.
  - intros T' L' HR.
    destruct (Nat.le_gt_cases a b) as [Hab|Hab].
    2:{ rewrite edit_index_bad in HR; [discriminate|]. intros (H & _). lia. }
    destruct (is_char_boundary T a) eqn:Ha.
    2:{ rewrite edit_index_bad in HR; [discriminate|]. intros (_ & H & _). congruence. }
    destruct (is_char_boundary T b) eqn:Hb.
    2:{ rewrite edit_index_bad in HR; [discriminate|]. intros (_ & _ & H). congruence. }
    destruct (edit_index_ok T a b w Hab Ha Hb) as (p & m & q & L & HT & Hp & Hm & HR').
    exists p, m, q. split; [exact HT|]. split; [exact Hp|]. split; [exact Hm|].
    congruence.
Qed.

End Lexer.

(* ------------------------------------------------------------------ *)
(** ** Witnesses and counterexamples, with the spec's [is_newline] *)

Lemma byte_to_utf16_roundtrip_witness :
  is_char_boundary TEST 12 = true /\
  exists u, byte_to_utf16 TEST (lines is_newline_spec TEST) 12 = Ret (Some u)
            /\ utf16_to_byte TEST (lines is_newline_spec TEST) u = Ret (Some 12).
Proof.
  split; [reflexivity|]. apply (byte_to_utf16_roundtrip is_newline_spec TEST 12). reflexivity.
Defined.

Lemma line_column_roundtrip_witness :
  is_char_boundary TEST 12 = true /\
  exists l c, byte_to_line TEST (lines is_newline_spec TEST) 12 = Ret (Some l)
              /\ byte_to_column TEST (lines is_newline_spec TEST) 12 = Ret (Some c)
              /\ line_column_to_byte TEST (lines is_newline_spec TEST) l c = Some 12.
Proof.
  split; [reflexivity|]. apply (line_column_roundtrip is_newline_spec TEST 12). reflexivity.
Defined.

Lemma byte_to_line_spec_witness :
  byte_to_line TEST (lines is_newline_spec TEST) 21 = Ret (Some 3)
  /\ byte_to_line TEST (lines is_newline_spec TEST) 22 = Ret None.
Proof.
  split.
  - exact (proj1 (proj2 (byte_to_line_spec is_newline_spec TEST 21)) eq_refl).
  - apply (proj1 (byte_to_line_spec is_newline_spec TEST 22)). simpl. lia.
Defined.

Lemma mid_char_positions_none_witness :
  byte_to_utf16 TEST (lines is_newline_spec TEST) 1 = Ret None /\ byte_to_column TEST (lines is_newline_spec TEST) 1 = Ret None.
Proof. apply (mid_char_positions_none is_newline_spec TEST 1); [simpl; lia|reflexivity]. Defined.

Lemma utf16_to_byte_bounds_witness :
  utf16_to_byte [128155; 97]%N (lines is_newline_spec [128155; 97]%N) 1 = Ret (Some 4)
  /\ utf16_to_byte [97; 128155]%N (lines is_newline_spec [97; 128155]%N) 2 = Ret None
  /\ utf16_to_byte TEST (lines is_newline_spec TEST) 19 = Ret None.
Proof.
  split; [|split].
  - apply (proj2 (proj2 (utf16_to_byte_bounds is_newline_spec [128155; 97]%N)) [] 128155%N [97%N]);
      [reflexivity|split; apply Nat.ltb_lt; reflexivity].
  - apply (proj2 (proj2 (utf16_to_byte_bounds is_newline_spec [97; 128155]%N)) [97%N] 128155%N []);
      [reflexivity|split; apply Nat.ltb_lt; reflexivity].
  - apply (proj1 (proj2 (utf16_to_byte_bounds is_newline_spec TEST))). simpl. lia.
Defined.

Lemma line_column_to_byte_clamps_witness :
  line_column_to_byte [97; 98]%N (lines is_newline_spec [97; 98]%N) 0 5 = Some 2
  /\ line_column_to_byte [97; 98]%N (lines is_newline_spec [97; 98]%N) 1 0 = None.
Proof.
  split.
  - destruct (proj2 (line_column_to_byte_clamps is_newline_spec [97; 98]%N 0 5) ltac:(simpl; lia))
      as (start & end_ & line & Hr & Hg & _ & Hc).
    vm_compute in Hr. injection Hr as <- <-. vm_compute in Hg. injection Hg as <-.
    apply Hc. simpl. lia.
  - apply (proj1 (line_column_to_byte_clamps is_newline_spec [97; 98]%N 1 0)). simpl. lia.
Defined.

(** C6 counterexample: line 0 of ["ab"] has 2 scalars, fewer than the
    column 5, yet [line_column_to_byte 0 5] succeeds with 2. *)
Lemma line_column_to_byte_past_line_end :
  str_get [97; 98]%N 0 2 = Some [97; 98]%N
  /\ line_to_range [97; 98]%N (lines is_newline_spec [97; 98]%N) 0 = Some (0, 2)
  /\ line_column_to_byte [97; 98]%N (lines is_newline_spec [97; 98]%N) 0 5 = Some 2.
Proof. split; [|split]; reflexivity. Qed.

Lemma edit_panics_iff_bad_range_witness :
  edit_index is_newline_spec [228]%N (lines is_newline_spec [228]%N) (1, 1) [] = Panic
  /\ (forall T' L', edit_index is_newline_spec TEST (lines is_newline_spec TEST) (4, 16) [10060]%N = Ret (T', L') ->
        exists p m q, TEST = p ++ m ++ q /\ len_bytes p = 4 /\ len_bytes (p ++ m) = 16
                      /\ T' = p ++ [10060]%N ++ q).
Proof.
  split.
  - apply (proj1 (edit_panics_iff_bad_range is_newline_spec [228]%N 1 1 [])).
    intros (_ & H & _). discriminate.
  - apply (proj2 (edit_panics_iff_bad_range is_newline_spec TEST 4 16 [10060]%N)).
Defined.

(** C8 counterexample: in the text ["ä"] (2 bytes) the range [1..1] is in
    bounds, yet [edit] panics, since byte 1 lies inside [ä]. *)
Lemma edit_mid_char_panics :
  len_bytes [228]%N = 2
  /\ edit_index is_newline_spec [228]%N (lines is_newline_spec [228]%N) (1, 1) [] = Panic.
Proof. split; reflexivity. Qed.

(* ------------------------------------------------------------------ *)
(** ** The line starts of [lines] *)

Lemma terminator_other c s : char_eqb c LF = false -> char_eqb c CR = false -> ~ terminator c s.
Proof.
  unfold char_eqb. intros H1 H2 [H|[H _]]; subst; discriminate.
Qed.

Lemma terminator_CR_LF s : ~ terminator CR (LF :: s).
Proof. intros [H|[_ H]]; [discriminate|apply H; reflexivity]. Qed.

Lemma line_start_from_cons o c s p :
  line_start_from o (c :: s) p <->
  (p = o + len_utf8 c /\ terminator c s) \/ line_start_from (o + len_utf8 c) s p.
Proof.
  split.
  - intros (pre & c' & rest & E & Hp & Ht). destruct pre as [|d pre].
    + simpl in E. inversion E; subst. left. split; [simpl; lia|exact Ht].
    + simpl in E. inversion E; subst. right. exists pre, c', rest.
      split; [reflexivity|]. split; [simpl; lia|exact Ht].
  - intros [[Hp Ht]|(pre & c' & rest & E & Hp & Ht)].
    + exists [], c, s. split; [reflexivity|]. split; [simpl; lia|exact Ht].
    + exists (c :: pre), c', rest. subst s.
      split; [reflexivity|]. split; [simpl; lia|exact Ht].
Qed.

Lemma line_start_from_nil o p : ~ line_start_from o [] p.
Proof. intros (pre & c & rest & E & _). destruct pre; discriminate. Qed.

Lemma lines_scan_starts : forall n s off cur u p,
  length s <= n ->
  (In p (map byte_idx (lines_scan is_newline_spec off cur u s)) <-> line_start_from (off + cur) s p).
Proof.
  induction n as [|n IH]; intros s off cur u p Hlen.
  { destruct s; [|simpl in Hlen; lia]. simpl. split; [tauto|apply line_start_from_nil]. }
  destruct s as [|c s]. { simpl. split; [tauto|apply line_start_from_nil]. }
  simpl in Hlen. rewrite line_start_from_cons. cbn [lines_scan].
  unfold is_newline_spec. destruct (char_eqb c LF) eqn:Hlf.
  - apply N.eqb_eq in Hlf. subst c. cbn [orb].
    replace (char_eqb LF CR) with false by reflexivity.
    simpl. rewrite IH by lia.
    replace (off + (cur + len_utf8 LF)) with (off + cur + len_utf8 LF) by lia.
    split.
    + intros [H|H]; [left; split; [lia|left; reflexivity]|right; exact H].
    + intros [[H _]|H]; [left; lia|right; exact H].
  - destruct (char_eqb c CR) eqn:Hcr; cbn [orb].
    + apply N.eqb_eq in Hcr. subst c. destruct s as [|c' s].
      * simpl. split.
        -- intros [H|[]]. left. split; [lia|right; split; [reflexivity|discriminate]].
        -- intros [[H _]|H]; [left; lia|destruct (line_start_from_nil _ _ H)].
      * destruct (char_eqb c' LF) eqn:Hlf'.
        -- apply N.eqb_eq in Hlf'. subst c'. simpl in Hlen.
           cbn [map In byte_idx]. rewrite IH by lia. rewrite line_start_from_cons.
           rewrite (proj1 len_LF).
           replace (off + (cur + len_utf8 CR + 1)) with (off + cur + len_utf8 CR + 1) by lia.
           pose proof (terminator_CR_LF s) as Hn. split.
           ++ intros [H|H].
              ** right. left. split; [lia|left; reflexivity].
              ** right. right. exact H.
           ++ intros [[_ H]|[[H _]|H]]; [contradiction|left; lia|right; exact H].
        -- cbn [map In byte_idx]. rewrite IH by (simpl in *; lia).
           replace (off + (cur + len_utf8 CR)) with (off + cur + len_utf8 CR) by lia.
           split.
           ++ intros [H|H]; [left; split; [lia|]|right; exact H].
              right. split; [reflexivity|]. simpl. intros E. inversion E; subst.
              discriminate.
           ++ intros [[H _]|H]; [left; lia|right; exact H].
    + rewrite IH by lia.
      replace (off + (cur + len_utf8 c)) with (off + cur + len_utf8 c) by lia.
      pose proof (terminator_other c s Hlf Hcr) as Hn. split.
      * intros H. right. exact H.
      * intros [[_ H]|H]; [contradiction|exact H].
Qed.

Lemma lines_scan_length : forall n s off cur u,
  length s <= n -> length (lines_scan is_newline_spec off cur u s) = count_breaks s.
Proof.
  induction n as [|n IH]; intros s off cur u Hlen.
  { destruct s; [reflexivity|simpl in Hlen; lia]. }
  destruct s as [|c s]; [reflexivity|]. simpl in Hlen. cbn [lines_scan is_newline_spec count_breaks].
  unfold is_newline_spec. destruct (char_eqb c LF) eqn:Hlf.
  - apply N.eqb_eq in Hlf. subst c. simpl. rewrite IH by lia. reflexivity.
  - destruct (char_eqb c CR) eqn:Hcr; cbn [orb andb].
    + destruct s as [|c' s]; [reflexivity|].
      cbn [starts_with_lf negb]. destruct (char_eqb c' LF) eqn:Hlf'.
      * cbn [length count_breaks]. rewrite Hlf'. simpl in Hlen. rewrite IH by lia.
        reflexivity.
      * cbn [length]. rewrite IH by (simpl in *; lia). reflexivity.
    + rewrite IH by lia. reflexivity.
Qed.

(** C2: for every text [T] (with [\n] and [\r] the line terminators),
    [lines T] starts with the record [{0, 0}], its byte offsets strictly
    increase, its byte offsets are exactly the starts of the lines of [T]
    (0, and the offsets right after a [\n] or after a [\r] not followed
    by [\n]), and it has one record per line: one more than the number of
    terminators, a [\r\n] counted once. *)
Theorem lines_spec (T : list char) :
  hd_error (lines is_newline_spec T) = Some (mkLine 0 0)
  /\ StronglySorted lt (map byte_idx (lines is_newline_spec T))
  /\ (forall p, In p (map byte_idx (lines is_newline_spec T)) <-> line_start T p)
  /\ length (lines is_newline_spec T) = S (count_breaks T).
Proof.
  split; [reflexivity|]. split; [|split].
  - destruct (lines_segs is_newline_spec T) as (segs & Hok & _ & ->).
    destruct (table_sorted_bytes segs Hok) as (l & -> & Hs & _). exact Hs.
  - intros p. unfold lines, lines_from. cbn [map byte_idx In].
    rewrite (lines_scan_starts (length T) T 0 0 0 p (le_n _)).
    unfold line_start, line_start_from. simpl. split; intros [H|H]; auto.
  - unfold lines, lines_from. cbn [length].
    rewrite (lines_scan_length (length T) T 0 0 0 (le_n _)). reflexivity.
Qed.

(* ------------------------------------------------------------------ *)
(** ** The incremental table after an edit *)

(** Evaluates a goal on concrete texts, given the values of the lexer's
    [is_newline] on their characters. *)
Ltac eval_with_newlines :=
  vm_compute;
  repeat match goal with
         | H : ?f ?c = ?v |- context [?f ?c] => rewrite H; vm_compute
         end.

(** C1 (a slip of [Source::edit]): for any [is_newline] of the lexer
    that takes [\r] and [\n] as line terminators and [a], [b], [c], [x]
    as none, the incremental update does not always agree with a full
    rebuild.  The [\r\n] check only looks at whether the inserted text
    starts with [\n]: replacing the [\n] of ["\r\n"] by ["\n"] (the
    text is unchanged) pops the record [{0, 0}]; inserting ["x"] between
    [\r] and [\n] loses the line start after the now lone [\r]; deleting
    the ["b"] of ["a\rb\nc"] keeps a record inside the new [\r\n]. *)
Theorem edit_index_table_diverges (is_newline : char -> bool)
    (Hnl : map is_newline [CR; LF; 97; 98; 99; 120]%N
           = [true; true; false; false; false; false]) :
  ~ (forall T a b w T' L', edit_index is_newline T (lines is_newline T) (a, b) w = Ret (T', L') ->
                           L' = lines is_newline T')
  /\ edit_index is_newline [CR; LF] (lines is_newline [CR; LF]) (1, 2) [LF]
     = Ret ([CR; LF], [mkLine 2 2])
  /\ lines is_newline [CR; LF] = [mkLine 0 0; mkLine 2 2]
  /\ edit_index is_newline [CR; LF] (lines is_newline [CR; LF]) (1, 1) [120%N]
     = Ret ([CR; 120%N; LF], [mkLine 0 0; mkLine 3 3])
  /\ lines is_newline [CR; 120%N; LF] = [mkLine 0 0; mkLine 1 1; mkLine 3 3]
  /\ edit_index is_newline [97; CR; 98; LF; 99]%N (lines is_newline [97; CR; 98; LF; 99]%N)
       (2, 3) []
     = Ret ([97; CR; LF; 99]%N, [mkLine 0 0; mkLine 2 2; mkLine 3 3])
  /\ lines is_newline [97; CR; LF; 99]%N = [mkLine 0 0; mkLine 3 3].
Proof.
  vm_compute in Hnl. injection Hnl as H1 H2 H3 H4 H5 H6.
  assert (E1 : edit_index is_newline [CR; LF] (lines is_newline [CR; LF]) (1, 2) [LF]
               = Ret ([CR; LF], [mkLine 2 2])) by (eval_with_newlines; reflexivity).
  assert (E2 : lines is_newline [CR; LF] = [mkLine 0 0; mkLine 2 2])
    by (eval_with_newlines; reflexivity).
  split.
  - intros H. specialize (H [CR; LF] 1 2 [LF] [CR; LF] [mkLine 2 2] E1).
    rewrite E2 in H. discriminate H.
  - split; [exact E1|]. split; [exact E2|].
    repeat split; eval_with_newlines; reflexivity.
Qed.

Lemma edit_index_table_diverges_witness :
  map is_newline_spec [CR; LF; 97; 98; 99; 120]%N = [true; true; false; false; false; false]
  /\ lines is_newline_spec [CR; 120%N; LF] = [mkLine 0 0; mkLine 1 1; mkLine 3 3].
Proof.
  split; [reflexivity|].
  exact (proj1 (proj2 (proj2 (proj2 (proj2 (edit_index_table_diverges is_newline_spec eq_refl)))))).
Defined.

(* ------------------------------------------------------------------ *)
(** ** Copy-on-write *)

Lemma make_mut_shared {SN FI : Type} (h : gmap nat (nat * @Snapshot.Repr SN FI)) p n r :
  h !! p = Some (S (S n), r) ->
  exists q, q <> p /\ Snapshot.make_mut h p = Ret (<[q := (1, r)]> (<[p := (S n, r)]> h), q).
Proof.
  intros Hp. unfold Snapshot.make_mut. rewrite Hp. simpl.
  exists (fresh (dom h)). split; [|f_equal; f_equal; f_equal; lia].
  intros E. pose proof (is_fresh (dom h)) as Hf. rewrite E in Hf.
  refine (Hf _). eapply elem_of_dom_2. exact Hp.
Qed.

(** An edit through a handle that was cloned moves it to a new
    allocation and leaves the shared one as it was. *)
Lemma source_edit_after_clone {SN FI : Type} is_newline reparse
    (h : gmap nat (nat * @Snapshot.Repr SN FI)) p n r replace w h2 p' rg :
  h !! p = Some (S n, r) ->
  (h1 ← Snapshot.arc_clone h p; Snapshot.source_edit is_newline reparse h1 p replace w)
    = Ret (h2, p', rg) ->
  p' <> p /\ h2 !! p = Some (S n, r).
Proof.
  intros Hp Hrun. unfold Snapshot.arc_clone in Hrun. rewrite Hp in Hrun. simpl in Hrun.
  unfold Snapshot.source_edit in Hrun. rewrite lookup_insert_eq in Hrun.
  destruct (make_mut_shared (<[p:=(S (S n), r)]> h) p n r (lookup_insert_eq _ _ _))
    as (q & Hq & Hm).
  rewrite Hm in Hrun.
  destruct (unwrap (byte_to_utf16 _ _ _)) as [u|]; [|discriminate]. simpl in Hrun.
  destruct (unwrap (byte_to_line _ _ _)) as [l|]; [|discriminate]. simpl in Hrun.
  rewrite lookup_insert_eq in Hrun. simpl in Hrun.
  destruct (edit_update _ _ _ _ _ _ _) as [[t' l']|]; [|discriminate]. simpl in Hrun.
  injection Hrun as <- <- <-. split; [exact Hq|].
  rewrite !lookup_insert_ne by congruence. apply lookup_insert_eq.
Qed.

(** The same for [Source::replace]. *)
Lemma source_replace_after_clone {SN FI : Type} is_newline parse numberize
    (h : gmap nat (nat * @Snapshot.Repr SN FI)) p n r text h2 p' :
  h !! p = Some (S n, r) ->
  (h1 ← Snapshot.arc_clone h p; Snapshot.source_replace is_newline parse numberize h1 p text)
    = Ret (h2, p') ->
  p' <> p /\ h2 !! p = Some (S n, r).
Proof.
  intros Hp Hrun. unfold Snapshot.arc_clone in Hrun. rewrite Hp in Hrun. simpl in Hrun.
  unfold Snapshot.source_replace in Hrun.
  destruct (make_mut_shared (<[p:=(S (S n), r)]> h) p n r (lookup_insert_eq _ _ _))
    as (q & Hq & Hm).
  rewrite Hm in Hrun. simpl in Hrun. rewrite lookup_insert_eq in Hrun.
  destruct (numberize _ _) as [root|]; [|discriminate].
  injection Hrun as <- <-. split; [exact Hq|].
  rewrite !lookup_insert_ne by congruence. apply lookup_insert_eq.
Qed.

(** C9 (the isolation holds, the consistency of the edited handle does
    not): after [clone], an [edit] or [replace] through the handle [p]
    moves it to a new allocation and the other handle's allocation keeps
    its count and its [Repr] (text, table and root); but the edited
    handle's table need not be [lines] of its new text: cloning a
    snapshot of ["\r\n"] and replacing its [\n] by ["\n"] gives a handle
    whose text is ["\r\n"] and whose table is [[{2, 2}]], for any
    [is_newline] of the lexer that takes [\r] and [\n] as line
    terminators. *)
Theorem clone_edit_isolated_index_stale {SN FI : Type} (is_newline : char -> bool)
    (parse : list char -> SN) (numberize : FI -> SN -> option SN)
    (reparse : SN -> list char -> nat * nat -> nat -> SN * (nat * nat))
    (id : FI) (root : SN) (Hnl : map is_newline [CR; LF] = [true; true]) :
  (forall (h : gmap nat (nat * @Snapshot.Repr SN FI)) p n r replace w h2 p' rg,
     h !! p = Some (S n, r) ->
     (h1 ← Snapshot.arc_clone h p; Snapshot.source_edit is_newline reparse h1 p replace w)
       = Ret (h2, p', rg) ->
     p' <> p /\ h2 !! p = Some (S n, r))
  /\ (forall (h : gmap nat (nat * @Snapshot.Repr SN FI)) p n r text h2 p',
     h !! p = Some (S n, r) ->
     (h1 ← Snapshot.arc_clone h p; Snapshot.source_replace is_newline parse numberize h1 p text)
       = Ret (h2, p') ->
     p' <> p /\ h2 !! p = Some (S n, r))
  /\ (exists h2 r',
       (h1 ← Snapshot.arc_clone
               {[0 := (1, Snapshot.mkRepr id [CR; LF] root (lines is_newline [CR; LF]))]} 0;
        Snapshot.source_edit is_newline reparse h1 0 (1, 2) [LF])
       = Ret (h2, 1, snd (reparse root [CR; LF] (1, 2) 1))
       /\ h2 !! 0 = Some (1, Snapshot.mkRepr id [CR; LF] root (lines is_newline [CR; LF]))
       /\ h2 !! 1 = Some (1, r')
       /\ Snapshot.repr_text r' = [CR; LF]
       /\ Snapshot.repr_lines r' = [mkLine 2 2]
       /\ Snapshot.repr_lines r' <> lines is_newline (Snapshot.repr_text r')).
Proof.
  split; [intros; eapply source_edit_after_clone; eassumption|].
  split; [intros; eapply source_replace_after_clone; eassumption|].
  vm_compute in Hnl. injection Hnl as H1 H2.
  eexists _, _. split; [eval_with_newlines; reflexivity|].
  split; [eval_with_newlines; reflexivity|].
  split; [eval_with_newlines; reflexivity|].
  split; [reflexivity|]. split; [reflexivity|].
  eval_with_newlines. discriminate.
Qed.

Lemma clone_edit_isolated_index_stale_witness :
  map is_newline_spec [CR; LF] = [true; true]
  /\ exists (h2 : gmap nat (nat * @Snapshot.Repr unit unit)) r',
       (h1 ← Snapshot.arc_clone
               {[0 := (1, Snapshot.mkRepr tt [CR; LF] tt (lines is_newline_spec [CR; LF]))]} 0;
        Snapshot.source_edit is_newline_spec (fun r _ rg _ => (r, rg)) h1 0 (1, 2) [LF])
       = Ret (h2, 1, (1, 2))
       /\ h2 !! 0 = Some (1, Snapshot.mkRepr tt [CR; LF] tt (lines is_newline_spec [CR; LF]))
       /\ h2 !! 1 = Some (1, r')
       /\ Snapshot.repr_text r' = [CR; LF]
       /\ Snapshot.repr_lines r' = [mkLine 2 2]
       /\ Snapshot.repr_lines r' <> lines is_newline_spec (Snapshot.repr_text r').
Proof.
  split; [reflexivity|].
  exact (proj2 (proj2 (clone_edit_isolated_index_stale is_newline_spec
                         (fun _ => tt) (fun _ _ => Some tt) (fun r _ rg _ => (r, rg))
                         tt tt eq_refl))).
Defined.

(* ------------------------------------------------------------------ *)
(** * Further properties of the code

    The scanner on concatenations, the incremental [edit] away from
    [\r], the remaining queries ([get], [len_utf16], [len_lines],
    [line_to_range]) and the copy-on-write operations. *)

Section Extras.
Variable is_newline : char -> bool.

Lemma scan_args_eq o cur cur' u u' X :
  cur = cur' -> u = u' ->
  lines_scan is_newline o cur u X = lines_scan is_newline o cur' u' X.
Proof. intros -> ->. reflexivity. Qed.

Lemma lines_scan_nil o cur u : lines_scan is_newline o cur u [] = [].
Proof. reflexivity. Qed.

Ltac scan_cases c X :=
  destruct (is_newline c) eqn:?;
  [destruct (char_eqb c CR) eqn:?;
   [destruct X as [|?c' ?X']; [|destruct (char_eqb _ LF) eqn:?]|]|].

(** Shifting the offset and the UTF-16 counter shifts every record. *)
Lemma lines_scan_shift : forall n X d e o cur u,
  length X <= n ->
  lines_scan is_newline (d + o) cur (e + u) X
  = map (fun l => mkLine (d + byte_idx l) (e + utf16_idx l)) (lines_scan is_newline o cur u X).
Proof.
  induction n as [|n IH]; intros X d e o cur u Hlen.
  { destruct X; [reflexivity|simpl in Hlen; lia]. }
  destruct X as [|c X]; [reflexivity|]. simpl in Hlen.
  cbn [lines_scan]. scan_cases c X;
    repeat rewrite <- Nat.add_assoc;
    rewrite IH by (simpl in *; lia); cbn [map]; try reflexivity;
    f_equal; simpl; f_equal; lia.
Qed.

(** Moving bytes from the cursor to the offset changes nothing. *)
Lemma lines_scan_cursor : forall n X o d cur u,
  length X <= n ->
  lines_scan is_newline o (d + cur) u X = lines_scan is_newline (o + d) cur u X.
Proof.
  induction n as [|n IH]; intros X o d cur u Hlen.
  { destruct X; [reflexivity|simpl in Hlen; lia]. }
  destruct X as [|c X]; [reflexivity|]. simpl in Hlen.
  cbn [lines_scan]. scan_cases c X;
    repeat rewrite <- Nat.add_assoc;
    rewrite IH by (simpl in *; lia); try reflexivity;
    f_equal; f_equal; lia.
Qed.

(** Every record of a scan lies after its start and within its text. *)
Lemma lines_scan_bounds : forall n X o cur u,
  length X <= n ->
  Forall (fun l => o + cur < byte_idx l <= o + cur + len_bytes X)
         (lines_scan is_newline o cur u X).
Proof.
  induction n as [|n IH]; intros X o cur u Hlen.
  { destruct X; [constructor|simpl in Hlen; lia]. }
  destruct X as [|c X]; [constructor|]. simpl in Hlen.
  pose proof (len_utf8_pos c). pose proof len_LF as [HL _].
  cbn [lines_scan len_bytes]. scan_cases c X.
  all: try match goal with H : char_eqb _ LF = true |- _ => apply N.eqb_eq in H; subst end.
  all: try (constructor; [simpl; try (cbn [len_bytes]); lia|]).
  all: match goal with
       | |- Forall _ (lines_scan _ ?o ?cur ?u ?X) =>
           eapply Forall_impl; [apply (IH X o cur u); simpl in *; lia|];
           intros l Hl; simpl in *; lia
       end.
Qed.

Lemma ends_with_cr_cons c P : P <> [] -> ends_with_cr (c :: P) = ends_with_cr P.
Proof.
  intros HP. unfold ends_with_cr. simpl.
  destruct (rev P) as [|d R] eqn:E; [|reflexivity].
  apply (f_equal (@rev char)) in E. rewrite rev_involutive in E. simpl in E. congruence.
Qed.

(** Scanning a concatenation scans both parts, unless a [\r] ending the
    first would pair with a [\n] starting the second. *)
Lemma lines_scan_app : forall n P X o cur u,
  length P <= n ->
  ends_with_cr P && starts_with_lf X = false ->
  lines_scan is_newline o cur u (P ++ X)
  = lines_scan is_newline o cur u P
    ++ lines_scan is_newline o (cur + len_bytes P) (u + len_utf16_str P) X.
Proof.
  induction n as [|n IH]; intros P X o cur u Hlen Hc.
  { destruct P; [|simpl in Hlen; lia]. simpl. rewrite !Nat.add_0_r. reflexivity. }
  destruct P as [|c P]. { simpl. rewrite !Nat.add_0_r. reflexivity. }
  simpl in Hlen.
  assert (Hc1 : ends_with_cr P && starts_with_lf X = false).
  { destruct P as [|c1 P]; [reflexivity|]. rewrite <- (ends_with_cr_cons c) by discriminate.
    exact Hc. }
  pose proof len_LF as [HL HL16].
  cbn [app lines_scan len_bytes len_utf16_str].
  destruct (is_newline c) eqn:Hnl.
  - destruct (char_eqb c CR) eqn:Hcr.
    + destruct P as [|c' P'].
      * cbn [app]. assert (Hx : starts_with_lf X = false).
        { unfold ends_with_cr in Hc. simpl in Hc. rewrite Hcr in Hc. exact Hc. }
        destruct X as [|x X'].
        -- reflexivity.
        -- simpl in Hx. rewrite Hx, lines_scan_nil. cbn [app]. f_equal.
           apply scan_args_eq; cbn [len_bytes len_utf16_str]; lia.
      * cbn [app]. destruct (char_eqb c' LF) eqn:Hlf.
        -- apply N.eqb_eq in Hlf. subst c'.
           assert (Hc2 : ends_with_cr P' && starts_with_lf X = false).
           { destruct P' as [|c2 P']; [reflexivity|].
             rewrite <- (ends_with_cr_cons LF) by discriminate. exact Hc1. }
           rewrite IH by first [assumption | simpl in *; lia]. cbn [app]. f_equal. f_equal.
           apply scan_args_eq; cbn [len_bytes len_utf16_str]; lia.
        -- change (c' :: P' ++ X) with ((c' :: P') ++ X).
           rewrite IH by first [assumption | simpl in *; lia]. cbn [app]. f_equal. f_equal.
           apply scan_args_eq; cbn [len_bytes len_utf16_str]; lia.
    + rewrite IH by first [assumption | simpl in *; lia]. cbn [app]. f_equal. f_equal.
      apply scan_args_eq; cbn [len_bytes len_utf16_str]; lia.
  - rewrite IH by first [assumption | simpl in *; lia]. f_equal. apply scan_args_eq; cbn [len_bytes len_utf16_str]; lia.
Qed.


(** [lines] of a concatenation, when no [\r\n] straddles the cut. *)
Lemma lines_app P X :
  ends_with_cr P && starts_with_lf X = false ->
  lines is_newline (P ++ X)
  = lines is_newline P ++ lines_from is_newline (len_bytes P) (len_utf16_str P) X.
Proof.
  intros Hc. unfold lines, lines_from.
  rewrite (lines_scan_app (length P) P X 0 0 0 (le_n _) Hc).
  pose proof (lines_scan_cursor (length X) X 0 (len_bytes P) 0 (len_utf16_str P) (le_n _)) as Hs.
  rewrite Nat.add_0_r, Nat.add_0_l in Hs. rewrite !Nat.add_0_l, Hs. reflexivity.
Qed.

Lemma lines_bytes_le P :
  Forall (fun l => byte_idx l <= len_bytes P) (lines is_newline P).
Proof.
  constructor; [simpl; lia|].
  eapply Forall_impl; [apply (lines_scan_bounds (length P) P 0 0 0 (le_n _))|].
  intros l Hl. simpl in Hl. lia.
Qed.

(** The search for the end of such a first part finds its last record. *)
Lemma byte_to_line_app P X :
  ends_with_cr P && starts_with_lf X = false ->
  byte_to_line (P ++ X) (lines is_newline (P ++ X)) (len_bytes P)
  = Ret (Some (length (lines_from is_newline 0 0 P))).
Proof.
  intros Hc.
  destruct (lines_byte_to_line is_newline (P ++ X) (len_bytes P)) as (i & Hi & (line & Hl & Hle) & Hj).
  { rewrite len_bytes_app. lia. }
  rewrite Hi. do 2 f_equal.
  rewrite (lines_app P X Hc) in Hl, Hj.
  pose proof (lines_bytes_le P) as Hb.
  assert (Hlen : length (lines is_newline P) = S (length (lines_from is_newline 0 0 P)))
    by reflexivity.
  destruct (Nat.lt_total i (length (lines_from is_newline 0 0 P))) as [Hlt|[Heq|Hgt]];
    [exfalso|exact Heq|exfalso].
  - destruct (lookup_lt_is_Some_2 (lines is_newline P) (length (lines_from is_newline 0 0 P)))
      as [x Hx]; [lia|].
    specialize (Hj _ x Hlt). rewrite lookup_app_l in Hj by lia. specialize (Hj Hx).
    pose proof (Forall_lookup_1 _ _ _ _ Hb Hx). simpl in *. lia.
  - rewrite lookup_app_r in Hl by lia.
    pose proof (lines_scan_bounds (length X) X (len_bytes P) 0 (len_utf16_str P) (le_n _)) as HB.
    unfold lines_from in Hl. pose proof (Forall_lookup_1 _ _ _ _ HB Hl). simpl in *. lia.
Qed.

(** [edit] on the table of [lines], step by step, when no [\r\n] of the
    old text straddles the start. *)
Lemma edit_update_at p m q w :
  ends_with_cr p && starts_with_lf (m ++ q) = false ->
  byte_to_utf16 (p ++ m ++ q) (lines is_newline (p ++ m ++ q)) (len_bytes p)
    = Ret (Some (len_utf16_str p))
  /\ byte_to_line (p ++ m ++ q) (lines is_newline (p ++ m ++ q)) (len_bytes p)
    = Ret (Some (length (lines_from is_newline 0 0 p)))
  /\ edit_update is_newline (p ++ m ++ q) (lines is_newline (p ++ m ++ q))
       (len_utf16_str p) (length (lines_from is_newline 0 0 p))
       (len_bytes p, len_bytes (p ++ m)) w
     = Ret (p ++ w ++ q,
            (if ends_with_cr p && starts_with_lf w then pop (lines is_newline p)
             else lines is_newline p)
            ++ lines_from is_newline (len_bytes p) (len_utf16_str p) (w ++ q)).
Proof.
  intros Hc.
  split; [apply lines_byte_to_utf16|].
  split; [apply byte_to_line_app, Hc|].
  rewrite (lines_app p (m ++ q) Hc).
  unfold edit_update, replace_range, truncate. cbn [fst snd].
  rewrite split_at_byte_exact, (app_assoc p m q), split_at_byte_exact.
  replace (len_bytes p <=? len_bytes (p ++ m)) with true
    by (symmetry; apply Nat.leb_le; rewrite len_bytes_app; lia).
  rewrite (take_app_length' (lines is_newline p)) by (cbn [lines length]; lia).
  unfold slice_to, slice_from. cbn [mbind outcome_bind obind].
  rewrite split_at_byte_exact. reflexivity.
Qed.

Lemma starts_with_lf_app w q :
  starts_with_lf w = true -> starts_with_lf (w ++ q) = true.
Proof. destruct w; [discriminate|exact id]. Qed.

(** ... and when no [\r\n] straddles the start in the new text either. *)
Lemma edit_update_clean p m q w :
  ends_with_cr p && starts_with_lf (m ++ q) = false ->
  ends_with_cr p && starts_with_lf (w ++ q) = false ->
  byte_to_utf16 (p ++ m ++ q) (lines is_newline (p ++ m ++ q)) (len_bytes p)
    = Ret (Some (len_utf16_str p))
  /\ byte_to_line (p ++ m ++ q) (lines is_newline (p ++ m ++ q)) (len_bytes p)
    = Ret (Some (length (lines_from is_newline 0 0 p)))
  /\ edit_update is_newline (p ++ m ++ q) (lines is_newline (p ++ m ++ q))
       (len_utf16_str p) (length (lines_from is_newline 0 0 p))
       (len_bytes p, len_bytes (p ++ m)) w
     = Ret (p ++ w ++ q, lines is_newline (p ++ w ++ q)).
Proof.
  intros Hold Hnew. destruct (edit_update_at p m q w Hold) as (H1 & H2 & H3).
  split; [exact H1|]. split; [exact H2|]. rewrite H3.
  assert (Hw : ends_with_cr p && starts_with_lf w = false).
  { destruct (ends_with_cr p); [|reflexivity]. simpl in *.
    destruct (starts_with_lf w) eqn:E; [|reflexivity].
    rewrite (starts_with_lf_app w q E) in Hnew. exact Hnew. }
  rewrite Hw, (lines_app p (w ++ q) Hnew). reflexivity.
Qed.

Lemma lines_scan_pos_eq o cur o' cur' u u' X :
  o + cur = o' + cur' -> u = u' ->
  lines_scan is_newline o cur u X = lines_scan is_newline o' cur' u' X.
Proof.
  intros Ho <-.
  pose proof (lines_scan_cursor (length X) X o cur 0 u (le_n _)) as H1.
  pose proof (lines_scan_cursor (length X) X o' cur' 0 u (le_n _)) as H2.
  rewrite Nat.add_0_r in H1, H2. rewrite H1, H2, Ho. reflexivity.
Qed.

Lemma sorted_lookup_lt (l : list nat) :
  StronglySorted lt l ->
  forall i j x y, i < j -> l !! i = Some x -> l !! j = Some y -> x < y.
Proof.
  induction 1 as [|a l Hs IH Hall]; intros i j x y Hij Hi Hj; [discriminate|].
  destruct j as [|j]; [lia|]. destruct i as [|i].
  - simpl in Hi, Hj. injection Hi as <-. exact (Forall_lookup_1 _ _ _ _ Hall Hj).
  - simpl in Hi, Hj. apply (IH i j); auto; lia.
Qed.

Lemma lines_sorted T : StronglySorted lt (map byte_idx (lines is_newline T)).
Proof.
  destruct (lines_segs is_newline T) as (segs & Hok & _ & ->).
  destruct (table_sorted_bytes segs Hok) as (l & -> & Hs & _). exact Hs.
Qed.

(** The search for the byte offset of a record finds that record. *)
Lemma lines_record_line T i line :
  lines is_newline T !! i = Some line ->
  byte_to_line T (lines is_newline T) (byte_idx line) = Ret (Some i).
Proof.
  intros Hl. destruct (lines_prefixes is_newline T i line Hl) as (A & R & HT & Hline).
  destruct (lines_byte_to_line is_newline T (byte_idx line))
    as (k & Hk & (line' & Hl' & Hle) & Hj).
  { rewrite Hline, HT, len_bytes_app. simpl. lia. }
  rewrite Hk. do 2 f_equal.
  destruct (Nat.lt_total k i) as [Hlt|[Heq|Hgt]]; [|exact Heq|].
  - specialize (Hj i line Hlt Hl). lia.
  - exfalso.
    pose proof (sorted_lookup_lt _ (lines_sorted T) i k (byte_idx line) (byte_idx line') Hgt)
      as H.
    rewrite !lookup_map, Hl, Hl' in H. specialize (H eq_refl eq_refl). lia.
Qed.

Lemma make_mut_ret {SN FI : Type} (h : gmap nat (nat * @Snapshot.Repr SN FI)) p n r :
  h !! p = Some (n, r) -> 1 <= n ->
  exists h1 q, Snapshot.make_mut h p = Ret (h1, q) /\ h1 !! q = Some (1, r) /\ (n = 1 -> q = p).
Proof.
  intros Hp Hn. unfold Snapshot.make_mut. rewrite Hp.
  destruct (n =? 1) eqn:E.
  - apply Nat.eqb_eq in E. subst n. exists h, p. auto.
  - eexists _, _. split; [reflexivity|]. split; [apply lookup_insert_eq|].
    intros C. apply Nat.eqb_neq in E. lia.
Qed.

(* ------------------------------------------------------------------ *)

(** [Source::get] returns a slice exactly when the range lies between two
    character boundaries in order, and then it returns the bytes between. *)
Theorem get_some_iff T a b m :
  get T (a, b) = Some m
  <-> exists p q, T = p ++ m ++ q /\ len_bytes p = a /\ len_bytes (p ++ m) = b.
Proof.
  split.
  - unfold get, str_get. cbn [fst snd].
    destruct (a <=? b) eqn:Hab; [|discriminate].
    destruct (split_at_byte T a) as [[p rest]|] eqn:E1; [|discriminate].
    destruct (split_at_byte rest (b - a)) as [[mid q]|] eqn:E2; [|discriminate].
    intros H. injection H as ->.
    apply split_at_byte_spec in E1 as [-> E1]. apply split_at_byte_spec in E2 as [-> E2].
    apply Nat.leb_le in Hab.
    exists p, q. split; [reflexivity|]. split; [exact E1|]. rewrite len_bytes_app. lia.
  - intros (p & q & -> & <- & <-). unfold get. cbn [fst snd].
    rewrite len_bytes_app. apply str_get_mid.
Qed.

(** [lines_from(off, u, text)] is [lines_from(0, 0, text)] with every
    record moved by [off] bytes and [u] UTF-16 units. *)
Theorem lines_from_offsets off u X :
  lines_from is_newline off u X
  = map (fun l => mkLine (off + byte_idx l) (u + utf16_idx l)) (lines_from is_newline 0 0 X).
Proof.
  unfold lines_from.
  pose proof (lines_scan_shift (length X) X off u 0 0 0 (le_n _)) as H.
  rewrite !Nat.add_0_r in H. exact H.
Qed.

(** The table of a concatenation [P ++ X] is the table of [P] followed by
    [lines_from] on [X] at the end of [P], unless [P] ends in [\r] and [X]
    starts with [\n]. *)
Theorem lines_of_concat P X :
  ends_with_cr P && starts_with_lf X = false ->
  lines is_newline (P ++ X)
  = lines is_newline P ++ lines_from is_newline (len_bytes P) (len_utf16_str P) X.
Proof. apply lines_app. Qed.

(** When no [\r\n] pair straddles the start of the edited range, neither
    in the old text nor in the new one, [edit] returns the new text and a
    line table equal to [lines] of it. *)
Theorem edit_index_agrees_no_crlf_at_start p m q w :
  ends_with_cr p && starts_with_lf (m ++ q) = false ->
  ends_with_cr p && starts_with_lf (w ++ q) = false ->
  edit_index is_newline (p ++ m ++ q) (lines is_newline (p ++ m ++ q))
    (len_bytes p, len_bytes (p ++ m)) w
  = Ret (p ++ w ++ q, lines is_newline (p ++ w ++ q)).
Proof.
  intros Hold Hnew. destruct (edit_update_clean p m q w Hold Hnew) as (H1 & H2 & H3).
  unfold edit_index. cbn [fst]. rewrite H1. cbn [unwrap mbind outcome_bind obind].
  rewrite H2. cbn [unwrap mbind outcome_bind obind]. exact H3.
Qed.

(** When the text before the edited range ends in a [\r] that was a line
    terminator on its own and the replacement starts with [\n], the [pop]
    of [edit] removes the stale line start, and the table is [lines] of
    the new text (for a lexer taking [\r] and [\n] as newlines). *)
Theorem edit_index_joins_cr_lf p' m q w' :
  is_newline CR = true -> is_newline LF = true ->
  starts_with_lf (m ++ q) = false ->
  edit_index is_newline ((p' ++ [CR]) ++ m ++ q) (lines is_newline ((p' ++ [CR]) ++ m ++ q))
    (len_bytes (p' ++ [CR]), len_bytes ((p' ++ [CR]) ++ m)) (LF :: w')
  = Ret ((p' ++ [CR]) ++ (LF :: w') ++ q,
         lines is_newline ((p' ++ [CR]) ++ (LF :: w') ++ q)).
Proof.
  intros Hcr Hlf Hold.
  assert (Hp : ends_with_cr (p' ++ [CR]) = true)
    by (unfold ends_with_cr; rewrite rev_unit; reflexivity).
  assert (Hc : ends_with_cr (p' ++ [CR]) && starts_with_lf (m ++ q) = false)
    by (rewrite Hold; apply andb_false_r).
  destruct (edit_update_at (p' ++ [CR]) m q (LF :: w') Hc) as (H1 & H2 & H3).
  unfold edit_index. cbn [fst]. rewrite H1. cbn [unwrap mbind outcome_bind obind].
  rewrite H2. cbn [unwrap mbind outcome_bind obind]. rewrite H3, Hp. cbn [andb].
  change (starts_with_lf (LF :: w')) with true.
  do 2 f_equal.
  rewrite (lines_app p' [CR]) by apply andb_false_r.
  unfold lines_from at 1. cbn [lines_scan]. rewrite Hcr. change (char_eqb CR CR) with true.
  unfold pop. rewrite removelast_last.
  rewrite <- app_assoc. cbn [app].
  rewrite (lines_app p' (CR :: LF :: w' ++ q)) by apply andb_false_r.
  unfold lines_from. cbn [lines_scan]. rewrite Hcr, Hlf.
  change (char_eqb CR CR) with true. change (char_eqb LF LF) with true.
  change (char_eqb LF CR) with false. cbn [andb negb].
  pose proof len_LF as [HL HL16].
  f_equal. rewrite len_bytes_app, len_utf16_str_app. cbn [len_bytes len_utf16_str].
  f_equal; [f_equal; lia|]. apply lines_scan_pos_eq; lia.
Qed.

(** [Source::len_utf16] on the table of [lines] is the UTF-16 length of
    the whole text (the [unwrap] never panics). *)
Theorem source_len_utf16_total T :
  source_len_utf16 T (lines is_newline T) = Ret (len_utf16_str T).
Proof.
  unfold source_len_utf16. rewrite last_lookup.
  destruct (lines is_newline T !! pred (length (lines is_newline T))) as [l|] eqn:E.
  2:{ apply lookup_ge_None in E. cbn [lines length] in E. lia. }
  destruct (lines_prefixes is_newline T _ l E) as (A & R & HT & ->).
  cbn [byte_idx utf16_idx]. unfold slice_from. rewrite HT, split_at_byte_exact.
  cbn [mbind outcome_bind obind]. rewrite len_utf16_str_app. reflexivity.
Qed.

(** For every line [l] of the table, [line_to_byte l] is its start [b],
    [byte_to_line b] is [l], [byte_to_column b] is [0], and
    [line_column_to_byte l 0] is [b]. *)
Theorem line_start_roundtrip T l :
  l < len_lines (lines is_newline T) ->
  exists b, line_to_byte (lines is_newline T) l = Some b
    /\ byte_to_line T (lines is_newline T) b = Ret (Some l)
    /\ byte_to_column T (lines is_newline T) b = Ret (Some 0)
    /\ line_column_to_byte T (lines is_newline T) l 0 = Some b.
Proof.
  intros Hl. unfold len_lines in Hl.
  destruct (lookup_lt_is_Some_2 _ _ Hl) as [line Hline].
  exists (byte_idx line).
  assert (Hb : line_to_byte (lines is_newline T) l = Some (byte_idx line))
    by (unfold line_to_byte; rewrite Hline; reflexivity).
  pose proof (lines_record_line T l line Hline) as Hbl.
  split; [exact Hb|]. split; [exact Hbl|]. split.
  - destruct (lines_prefixes is_newline T l line Hline) as (A & R & HT & Heq).
    unfold byte_to_column. rewrite Hbl. cbn [mbind outcome_bind obind]. rewrite Hb.
    pose proof (str_get_mid A [] R) as H. cbn [app len_bytes] in H.
    rewrite Nat.add_0_r in H. rewrite Heq, HT. cbn [byte_idx]. rewrite H. reflexivity.
  - destruct (lines_segs is_newline T) as (segs & Hok & HT & HL).
    rewrite HL in Hline, Hl |- *. rewrite starts_length in Hl.
    destruct (lookup_lt_is_Some_2 _ _ Hl) as [s Hs].
    destruct (table_line_range segs l s Hs) as [Hr Hg].
    rewrite <- HT. unfold line_column_to_byte. rewrite Hr, Hg. cbn [chars_advance].
    rewrite Nat.sub_diag, Nat.add_0_r.
    rewrite (table_lookup segs l s Hs) in Hline. injection Hline as <-. reflexivity.
Qed.

(** The lines' ranges cut the text into consecutive slices: there are
    [len_lines] slices, each is what [get] returns on the line's range,
    and together they make up the text; [line_to_range] gives [None] past
    the last line. *)
Theorem line_ranges_tile T :
  (exists segs, concat segs = T /\ length segs = len_lines (lines is_newline T)
     /\ forall l s, segs !! l = Some s ->
          exists a b, line_to_range T (lines is_newline T) l = Some (a, b)
                      /\ get T (a, b) = Some s)
  /\ (forall l, len_lines (lines is_newline T) <= l -> line_to_range T (lines is_newline T) l = None).
Proof.
  destruct (lines_segs is_newline T) as (segs & Hok & HT & HL).
  unfold len_lines. rewrite HL, starts_length. split.
  - exists segs. split; [exact HT|]. split; [reflexivity|].
    intros l s Hs. destruct (table_line_range segs l s Hs) as [Hr Hg].
    rewrite <- HT. eexists _, _. split; [exact Hr|exact Hg].
  - intros l Hl. unfold line_to_range, line_to_byte.
    rewrite (proj2 (lookup_ge_None _ _)) by (rewrite starts_length; exact Hl). reflexivity.
Qed.

(** [byte_to_utf16] is strictly increasing on character boundaries. *)
Theorem byte_to_utf16_increasing T b1 b2 :
  b1 < b2 -> is_char_boundary T b1 = true -> is_char_boundary T b2 = true ->
  exists u1 u2, byte_to_utf16 T (lines is_newline T) b1 = Ret (Some u1)
    /\ byte_to_utf16 T (lines is_newline T) b2 = Ret (Some u2) /\ u1 < u2.
Proof.
  intros Hlt H1 H2.
  apply is_char_boundary_spec in H1 as (P1 & Q1 & HT1 & <-).
  apply is_char_boundary_spec in H2 as (P2 & Q2 & HT2 & <-).
  destruct (prefix_by_bytes P1 Q1 P2 Q2) as [m ->]; [congruence|lia|].
  exists (len_utf16_str P1), (len_utf16_str (P1 ++ m)).
  split; [rewrite HT1; apply lines_byte_to_utf16|].
  split; [rewrite HT2; apply lines_byte_to_utf16|].
  rewrite len_utf16_str_app. destruct m as [|c m]; [rewrite app_nil_r in Hlt; lia|].
  pose proof (len_utf16_str_pos (c :: m) ltac:(discriminate)). lia.
Qed.

(** [byte_to_line] is monotone on [0..=len]. *)
Theorem byte_to_line_monotone T b1 b2 :
  b1 <= b2 -> b2 <= len_bytes T ->
  exists l1 l2, byte_to_line T (lines is_newline T) b1 = Ret (Some l1)
    /\ byte_to_line T (lines is_newline T) b2 = Ret (Some l2) /\ l1 <= l2.
Proof.
  intros H12 H2.
  destruct (lines_byte_to_line is_newline T b1) as (i1 & Hi1 & (x1 & Hx1 & Hle1) & Hj1); [lia|].
  destruct (lines_byte_to_line is_newline T b2) as (i2 & Hi2 & (x2 & Hx2 & Hle2) & Hj2); [lia|].
  exists i1, i2. split; [exact Hi1|]. split; [exact Hi2|].
  destruct (Nat.le_gt_cases i1 i2) as [H|H]; [exact H|].
  specialize (Hj2 i1 x1 H Hx1). lia.
Qed.

(** Every record of [lines T] sits on a character boundary, and its
    [utf16_idx] is what [byte_to_utf16] gives for its [byte_idx]. *)
Theorem line_records_consistent T i line :
  lines is_newline T !! i = Some line ->
  is_char_boundary T (byte_idx line) = true
  /\ byte_to_utf16 T (lines is_newline T) (byte_idx line) = Ret (Some (utf16_idx line)).
Proof.
  intros Hl. destruct (lines_prefixes is_newline T i line Hl) as (A & R & -> & ->).
  cbn [byte_idx utf16_idx]. split.
  - apply is_char_boundary_spec. eauto.
  - apply lines_byte_to_utf16.
Qed.

(** [Source::edit] on a handle whose table is [lines] of its text, with
    no [\r\n] straddling the start of the range in the old or the new
    text, returns, and the handle then points to an allocation of count 1
    whose text is the edited text and whose table is [lines] of it. *)
Theorem source_edit_keeps_lines {SN FI : Type} reparse
    (h : gmap nat (nat * @Snapshot.Repr SN FI)) p n r P m Q w :
  h !! p = Some (n, r) -> 1 <= n ->
  Snapshot.repr_text r = P ++ m ++ Q ->
  Snapshot.repr_lines r = lines is_newline (Snapshot.repr_text r) ->
  ends_with_cr P && starts_with_lf (m ++ Q) = false ->
  ends_with_cr P && starts_with_lf (w ++ Q) = false ->
  exists h' q rg r',
    Snapshot.source_edit is_newline reparse h p (len_bytes P, len_bytes (P ++ m)) w
      = Ret (h', q, rg)
    /\ h' !! q = Some (1, r')
    /\ Snapshot.repr_text r' = P ++ w ++ Q
    /\ Snapshot.repr_lines r' = lines is_newline (Snapshot.repr_text r').
Proof.
  intros Hp Hn Ht Hl Hold Hnew.
  destruct (edit_update_clean P m Q w Hold Hnew) as (H1 & H2 & H3).
  destruct (make_mut_ret h p n r Hp Hn) as (h1 & q & Hm & Hq & _).
  unfold Snapshot.source_edit. rewrite Hp. cbn [fst].
  rewrite Hl, Ht, H1. cbn [unwrap mbind outcome_bind obind].
  rewrite H2. cbn [unwrap mbind outcome_bind obind].
  rewrite Hm. cbn [mbind outcome_bind obind]. rewrite Hq.
  rewrite Hl, Ht, H3. cbn [mbind outcome_bind obind].
  eexists _, _, _, _. split; [reflexivity|]. split; [apply lookup_insert_eq|].
  split; reflexivity.
Qed.

End Extras.

(* ------------------------------------------------------------------ *)
(** ** Witnesses of the properties above *)

Lemma lines_of_concat_witness :
  ends_with_cr [97%N; LF] && starts_with_lf [98%N; CR; LF] = false
  /\ lines is_newline_spec ([97%N; LF] ++ [98%N; CR; LF])
     = lines is_newline_spec [97%N; LF]
       ++ lines_from is_newline_spec (len_bytes [97%N; LF]) (len_utf16_str [97%N; LF])
            [98%N; CR; LF].
Proof. split; [reflexivity|]. apply lines_of_concat. reflexivity. Defined.

Lemma edit_index_agrees_no_crlf_at_start_witness :
  ends_with_cr [97%N; CR] && starts_with_lf ([98%N] ++ [99%N]) = false
  /\ ends_with_cr [97%N; CR] && starts_with_lf ([100%N] ++ [99%N]) = false
  /\ edit_index is_newline_spec ([97%N; CR] ++ [98%N] ++ [99%N])
       (lines is_newline_spec ([97%N; CR] ++ [98%N] ++ [99%N]))
       (len_bytes [97%N; CR], len_bytes ([97%N; CR] ++ [98%N])) [100%N]
     = Ret ([97%N; CR] ++ [100%N] ++ [99%N],
            lines is_newline_spec ([97%N; CR] ++ [100%N] ++ [99%N])).
Proof.
  split; [reflexivity|]. split; [reflexivity|].
  apply edit_index_agrees_no_crlf_at_start; reflexivity.
Defined.

Lemma edit_index_joins_cr_lf_witness :
  is_newline_spec CR = true /\ is_newline_spec LF = true
  /\ starts_with_lf ([98%N] ++ [99%N]) = false
  /\ edit_index is_newline_spec (([97%N] ++ [CR]) ++ [98%N] ++ [99%N])
       (lines is_newline_spec (([97%N] ++ [CR]) ++ [98%N] ++ [99%N]))
       (len_bytes ([97%N] ++ [CR]), len_bytes (([97%N] ++ [CR]) ++ [98%N])) (LF :: [100%N])
     = Ret (([97%N] ++ [CR]) ++ (LF :: [100%N]) ++ [99%N],
            lines is_newline_spec (([97%N] ++ [CR]) ++ (LF :: [100%N]) ++ [99%N])).
Proof.
  split; [reflexivity|]. split; [reflexivity|]. split; [reflexivity|].
  apply edit_index_joins_cr_lf; reflexivity.
Defined.

Lemma line_start_roundtrip_witness :
  1 < len_lines (lines is_newline_spec TEST)
  /\ exists b, line_to_byte (lines is_newline_spec TEST) 1 = Some b
       /\ byte_to_line TEST (lines is_newline_spec TEST) b = Ret (Some 1)
       /\ byte_to_column TEST (lines is_newline_spec TEST) b = Ret (Some 0)
       /\ line_column_to_byte TEST (lines is_newline_spec TEST) 1 0 = Some b.
Proof.
  split; [apply Nat.ltb_lt; reflexivity|].
  apply line_start_roundtrip. apply Nat.ltb_lt; reflexivity.
Defined.

Lemma byte_to_utf16_increasing_witness :
  is_char_boundary [97%N; 128155%N; 98%N] 1 = true
  /\ is_char_boundary [97%N; 128155%N; 98%N] 5 = true
  /\ exists u1 u2,
       byte_to_utf16 [97%N; 128155%N; 98%N] (lines is_newline_spec [97%N; 128155%N; 98%N]) 1
         = Ret (Some u1)
       /\ byte_to_utf16 [97%N; 128155%N; 98%N] (lines is_newline_spec [97%N; 128155%N; 98%N]) 5
         = Ret (Some u2)
       /\ u1 < u2.
Proof.
  split; [reflexivity|]. split; [reflexivity|].
  apply byte_to_utf16_increasing; [lia|reflexivity|reflexivity].
Defined.

Lemma byte_to_line_monotone_witness :
  10 <= len_bytes TEST
  /\ exists l1 l2, byte_to_line TEST (lines is_newline_spec TEST) 2 = Ret (Some l1)
       /\ byte_to_line TEST (lines is_newline_spec TEST) 10 = Ret (Some l2) /\ l1 <= l2.
Proof.
  split; [apply Nat.leb_le; reflexivity|].
  apply byte_to_line_monotone; [lia|apply Nat.leb_le; reflexivity].
Defined.

Lemma line_records_consistent_witness :
  lines is_newline_spec [97%N; CR; LF; 98%N] !! 1 = Some (mkLine 3 3)
  /\ is_char_boundary [97%N; CR; LF; 98%N] 3 = true
  /\ byte_to_utf16 [97%N; CR; LF; 98%N] (lines is_newline_spec [97%N; CR; LF; 98%N]) 3
     = Ret (Some 3).
Proof.
  split; [reflexivity|].
  exact (line_records_consistent is_newline_spec [97%N; CR; LF; 98%N] 1 (mkLine 3 3)
           eq_refl).
Defined.

Lemma source_edit_keeps_lines_witness :
  ({[0 := (1, Snapshot.mkRepr tt [97%N; LF; 98%N] tt (lines is_newline_spec [97%N; LF; 98%N]))]}
     : gmap nat (nat * @Snapshot.Repr unit unit)) !! 0
    = Some (1, Snapshot.mkRepr tt [97%N; LF; 98%N] tt (lines is_newline_spec [97%N; LF; 98%N]))
  /\ ends_with_cr [97%N; LF] && starts_with_lf ([98%N] ++ []) = false
  /\ ends_with_cr [97%N; LF] && starts_with_lf ([CR; LF] ++ []) = false
  /\ exists h' q rg r',
    Snapshot.source_edit is_newline_spec (fun r _ rg _ => (r, rg))
      ({[0 := (1, Snapshot.mkRepr tt [97%N; LF; 98%N] tt (lines is_newline_spec [97%N; LF; 98%N]))]}
         : gmap nat (nat * @Snapshot.Repr unit unit)) 0
      (len_bytes [97%N; LF], len_bytes ([97%N; LF] ++ [98%N])) [CR; LF]
      = Ret (h', q, rg)
    /\ h' !! q = Some (1, r')
    /\ Snapshot.repr_text r' = [97%N; LF] ++ [CR; LF] ++ []
    /\ Snapshot.repr_lines r' = lines is_newline_spec (Snapshot.repr_text r').
Proof.
  split; [reflexivity|]. split; [reflexivity|]. split; [reflexivity|].
  apply (source_edit_keeps_lines is_newline_spec (fun r _ rg _ => (r, rg))
           {[0 := (1, Snapshot.mkRepr tt [97%N; LF; 98%N] tt (lines is_newline_spec [97%N; LF; 98%N]))]}
           0 1 (Snapshot.mkRepr tt [97%N; LF; 98%N] tt (lines is_newline_spec [97%N; LF; 98%N]))
           [97%N; LF] [98%N] []); reflexivity || lia.
Defined.
